(** * VISinger data pipeline: bucket sampler, collator and fetch reconciliation

    A shallow embedding of [VISinger/data_utils.py]:
    - [DistributedBucketSampler] ([_bisect], [_create_buckets], [__init__],
      [__iter__]),
    - [TextAudioCollate.__call__],
    - the length reconciliation of [TextAudioLoader.get_audio_text_pair].

    Conventions.  Python integers that are compared as values (sample lengths,
    boundaries, the epoch) are [Z].  Sizes, positions and counts (list indices,
    [batch_size], [num_replicas], [rank]) are [nat]; zero is kept in the domain
    so that every division of the source can raise.  Python exceptions are the
    [Raise] results of the [result] type. *)

From Equations Require Import Equations.
From stdpp Require Import base list sorting relations.
From Stdlib Require Import ZArith Lia.

(** ** Exceptions and results *)

Inductive exn : Set :=
| ZeroDivisionError
| IndexError
| AssertionError
| ValueError
| RuntimeError.

Inductive result (A : Type) : Type :=
| Ok (a : A)
| Raise (e : exn).
Arguments Ok {A} a.
Arguments Raise {A} e.

Definition bind {A B : Type} (r : result A) (k : A -> result B) : result B :=
  match r with
  | Ok a => k a
  | Raise e => Raise e
  end.

Notation "'let*' x ':=' c 'in' k" := (bind c (fun x => k))
  (at level 10, x name, c at level 100, k at level 200).

(** [[f(x) for x in l]] where [f] may raise: the first exception wins. *)
Fixpoint mapM {A B : Type} (f : A -> result B) (l : list A) : result (list B) :=
  match l with
  | [] => Ok []
  | a :: l' =>
      let* b := f a in
      let* bs := mapM f l' in
      Ok (b :: bs)
  end.

(** [for x in l: acc = f(acc, x)] where the body may raise. *)
Fixpoint foldM {A S : Type} (f : S -> A -> result S) (l : list A) (acc : S) : result S :=
  match l with
  | [] => Ok acc
  | a :: l' =>
      let* acc' := f acc a in
      foldM f l' acc'
  end.

(** ** Python list and integer primitives used by the source *)

(** [l[i]] for a non-negative index. *)
Definition getitem {A : Type} (l : list A) (i : nat) : result A :=
  match l !! i with
  | Some a => Ok a
  | None => Raise IndexError
  end.

(** [l.pop(i)] for a non-negative index, returning the list that is left. *)
Definition list_pop {A : Type} (l : list A) (i : nat) : result (list A) :=
  if decide (i < length l) then Ok (delete i l) else Raise IndexError.

(** [l[i].append(x)] on a list of lists. *)
Definition append_at {A : Type} (l : list (list A)) (i : nat) (x : A) : result (list (list A)) :=
  let* row := getitem l i in
  Ok (<[i := row ++ [x]]> l).

(** [a // b] and [a % b] on non-negative integers. *)
Definition py_floordiv (a b : nat) : result nat :=
  if decide (b = 0) then Raise ZeroDivisionError else Ok (a / b).

Definition py_mod (a b : nat) : result nat :=
  if decide (b = 0) then Raise ZeroDivisionError else Ok (a mod b).

(** [sum(l)]. *)
Definition py_sum (l : list nat) : nat := foldr Nat.add 0 l.

(** [l * k]: [k] copies of [l] in a row. *)
Fixpoint list_times {A : Type} (l : list A) (k : nat) : list A :=
  match k with
  | 0 => []
  | S k' => l ++ list_times l k'
  end.

(** [l[:n]] and [l[a:b]] for non-negative bounds. *)
Definition slice_to {A : Type} (l : list A) (n : nat) : list A := take n l.

Definition slice {A : Type} (l : list A) (a b : nat) : list A := take (b - a) (drop a l).

(** [range(start, stop, step)] for a positive step: the positions
    [start], [start + step], ... below [stop]. *)
Definition py_range (start stop step : nat) : list nat :=
  map (fun k => start + k * step) (seq 0 ((stop - start + (step - 1)) / step)).

(** [l[start::step]]: the items of [l] at the positions
    [range(start, len(l), step)]; a zero step raises. *)
Definition slice_step {A : Type} (l : list A) (start step : nat) : result (list A) :=
  if decide (step = 0) then Raise ValueError
  else Ok (omap (fun p => l !! p) (py_range start (length l) step)).

(** ** [DistributedBucketSampler._bisect] *)

(** The upper bound a call works with: [hi], or [len(boundaries) - 1] when the
    argument is left at its default [None]. *)
Definition bisect_hi (boundaries : list Z) (hi : option nat) : nat :=
  match hi with
  | None => length boundaries - 1
  | Some h => h
  end.

(** The size of the interval a call searches. *)
Definition bisect_measure (boundaries : list Z) (lo : nat) (hi : option nat) : nat :=
  bisect_hi boundaries hi - lo.

(** The search itself.  [and] is short-circuit: [boundaries[mid+1]] is read
    only when [boundaries[mid] < x].  The result is [mid] or the sentinel
    [-1].  Recursion is on the size of the searched interval. *)
Equations? _bisect (boundaries : list Z) (x : Z) (lo : nat) (hi : option nat) : result Z
  by wf (bisect_measure boundaries lo hi) lt :=
  _bisect boundaries x lo hi_arg with decide (lo < bisect_hi boundaries hi_arg) := {
    | left Hgt =>
        let hi := bisect_hi boundaries hi_arg in
        let mid := (hi + lo) / 2 in
        let* b_mid := getitem boundaries mid in
        let* found :=
          (if bool_decide (b_mid < x)%Z
           then let* b_next := getitem boundaries (mid + 1) in
                Ok (bool_decide (x <= b_next)%Z)
           else Ok false) in
        if found then Ok (Z.of_nat mid)
        else
          let* b_mid' := getitem boundaries mid in
          if bool_decide (x <= b_mid')%Z
          then _bisect boundaries x lo (Some mid)
          else _bisect boundaries x (mid + 1) (Some hi)
    | right _ => Ok (-1)%Z }.
Proof.
  all: unfold bisect_measure; simpl; subst hi mid;
    assert (lo <= (bisect_hi boundaries hi_arg + lo) / 2)
      by (apply Nat.div_le_lower_bound; lia);
    assert ((bisect_hi boundaries hi_arg + lo) / 2 < bisect_hi boundaries hi_arg)
      by (apply Nat.Div0.div_lt_upper_bound; lia);
    lia.
Qed.

(** ** [DistributedBucketSampler._create_buckets] *)

(** First loop: every sample index [i] is appended to the bucket that
    [_bisect] finds for [lengths[i]], unless the search answers [-1]. *)
Fixpoint assign_buckets (boundaries : list Z) (i : nat) (lengths : list Z)
    (buckets : list (list nat)) : result (list (list nat)) :=
  match lengths with
  | [] => Ok buckets
  | length_i :: rest =>
      let* idx_bucket := _bisect boundaries length_i 0 None in
      let* buckets' :=
        (if bool_decide (idx_bucket <> (-1)%Z)
         then append_at buckets (Z.to_nat idx_bucket) i
         else Ok buckets) in
      assign_buckets boundaries (S i) rest buckets'
  end.

(** Second loop, [for i in range(len(buckets) - 1, 0, -1)]: the argument [i]
    counts down from [len(buckets) - 1] and the loop stops before index [0].
    The state is the pair of the bucket list and the boundary list, both
    popped in place by the source. *)
Fixpoint prune_empty (i : nat) (st : list (list nat) * list Z)
    : result (list (list nat) * list Z) :=
  match i with
  | 0 => Ok st
  | S i' =>
      let* bucket := getitem st.1 i in
      let* st' :=
        (if decide (length bucket = 0)
         then let* buckets' := list_pop st.1 i in
              let* boundaries' := list_pop st.2 (i + 1) in
              Ok (buckets', boundaries')
         else Ok st) in
      prune_empty i' st'
  end.

(** Body of the third loop: the padded sample count of one bucket. *)
Definition padded_count (num_replicas batch_size len_bucket : nat) : result nat :=
  let total_batch_size := num_replicas * batch_size in
  let* m := py_mod len_bucket total_batch_size in
  let* rem := py_mod (total_batch_size - m) total_batch_size in
  Ok (len_bucket + rem).

Definition _create_buckets (lengths boundaries : list Z) (batch_size num_replicas : nat)
    : result (list (list nat) * list nat * list Z) :=
  let buckets := replicate (length boundaries - 1) [] in
  let* buckets := assign_buckets boundaries 0 lengths buckets in
  let* st := prune_empty (length buckets - 1) (buckets, boundaries) in
  let* num_samples_per_bucket :=
    mapM (fun bucket => padded_count num_replicas batch_size (length bucket)) st.1 in
  Ok (st.1, num_samples_per_bucket, st.2).

(** ** The sampler object *)

Record Sampler : Type := mkSampler {
  lengths : list Z;
  batch_size : nat;
  boundaries : list Z;
  num_replicas : nat;
  rank : nat;
  shuffle : bool;
  epoch : Z;
  buckets : list (list nat);
  num_samples_per_bucket : list nat;
  total_size : nat;
  num_samples : nat;
  batches : option (list (list nat))
}.

(** [__init__]: the base class stores [num_replicas], [rank], [shuffle] and
    [epoch = 0]; the attribute [batches] does not exist yet. *)
Definition __init__ (dataset_lengths : list Z) (batch_size : nat) (boundaries : list Z)
    (num_replicas rank : nat) (shuffle : bool) : result Sampler :=
  let* r := _create_buckets dataset_lengths boundaries batch_size num_replicas in
  let '(buckets, num_samples_per_bucket, boundaries') := r in
  let total_size := py_sum num_samples_per_bucket in
  let* num_samples := py_floordiv total_size num_replicas in
  Ok {| lengths := dataset_lengths;
        batch_size := batch_size;
        boundaries := boundaries';
        num_replicas := num_replicas;
        rank := rank;
        shuffle := shuffle;
        epoch := 0%Z;
        buckets := buckets;
        num_samples_per_bucket := num_samples_per_bucket;
        total_size := total_size;
        num_samples := num_samples;
        batches := None |}.

(** [set_epoch] of the base class: the training loop's only write. *)
Definition set_epoch (s : Sampler) (e : Z) : Sampler :=
  {| lengths := lengths s;
     batch_size := batch_size s;
     boundaries := boundaries s;
     num_replicas := num_replicas s;
     rank := rank s;
     shuffle := shuffle s;
     epoch := e;
     buckets := buckets s;
     num_samples_per_bucket := num_samples_per_bucket s;
     total_size := total_size s;
     num_samples := num_samples s;
     batches := batches s |}.

(** [self.batches = b]. *)
Definition set_batches (s : Sampler) (b : list (list nat)) : Sampler :=
  {| lengths := lengths s;
     batch_size := batch_size s;
     boundaries := boundaries s;
     num_replicas := num_replicas s;
     rank := rank s;
     shuffle := shuffle s;
     epoch := epoch s;
     buckets := buckets s;
     num_samples_per_bucket := num_samples_per_bucket s;
     total_size := total_size s;
     num_samples := num_samples s;
     batches := Some b |}.

(** ** [DistributedBucketSampler.__iter__] *)

(** [ids + ids * (rem // len_bucket) + ids[:(rem % len_bucket)]]. *)
Definition extend_ids (ids_bucket : list nat) (len_bucket rem : nat) : result (list nat) :=
  let* q := py_floordiv rem len_bucket in
  let* r := py_mod rem len_bucket in
  Ok (ids_bucket ++ list_times ids_bucket q ++ slice_to ids_bucket r).

(** The inner loop: [len(ids) // batch_size] batches, each the bucket items
    at the indices [ids[j*batch_size:(j+1)*batch_size]]. *)
Definition make_batches (bucket ids_bucket : list nat) (batch_size : nat)
    (batches : list (list nat)) : result (list (list nat)) :=
  let* n := py_floordiv (length ids_bucket) batch_size in
  foldM (fun batches j =>
           let* batch := mapM (getitem bucket)
                           (slice ids_bucket (j * batch_size) ((j + 1) * batch_size)) in
           Ok (batches ++ [batch]))
        (seq 0 n) batches.

(** One round of the loop over the buckets. *)
Definition bucket_step (s : Sampler) (indices : list (list nat))
    (batches : list (list nat)) (i : nat) : result (list (list nat)) :=
  let* bucket := getitem (buckets s) i in
  let len_bucket := length bucket in
  let* ids_bucket := getitem indices i in
  let* num_samples_bucket := getitem (num_samples_per_bucket s) i in
  let rem := num_samples_bucket - len_bucket in
  let* ids_bucket := extend_ids ids_bucket len_bucket rem in
  let* ids_bucket := slice_step ids_bucket (rank s) (num_replicas s) in
  make_batches bucket ids_bucket (batch_size s) batches.

Section Iter.
(** The random generator of the tensor library: its states, seeding, and
    the permutation it draws from a state (with the state that follows). *)
Variable Gen : Type.
Variable manual_seed : Z -> Gen.
Variable randperm : nat -> Gen -> list nat * Gen.

(** The index list of every bucket: a drawn permutation when shuffling, the
    identity order otherwise; the generator is advanced only by a draw. *)
Fixpoint bucket_indices (shuffle : bool) (bks : list (list nat)) (g : Gen)
    : list (list nat) * Gen :=
  match bks with
  | [] => ([], g)
  | bucket :: rest =>
      if shuffle then
        let '(p, g') := randperm (length bucket) g in
        let '(ps, g'') := bucket_indices shuffle rest g' in
        (p :: ps, g'')
      else
        let '(ps, g') := bucket_indices shuffle rest g in
        (seq 0 (length bucket) :: ps, g')
  end.

(** [__iter__] returns the batch list (the source wraps it in an iterator)
    or the exception raised, together with the sampler afterwards:
    [self.batches] is assigned just before the closing assertion. *)
Definition __iter__ (s : Sampler) : result (list (list nat)) * Sampler :=
  let g := manual_seed (epoch s) in
  let '(indices, g) := bucket_indices (shuffle s) (buckets s) g in
  let r :=
    let* batches := foldM (bucket_step s indices) (seq 0 (length (buckets s))) [] in
    if shuffle s then
      let '(batch_ids, _) := randperm (length batches) g in
      mapM (getitem batches) batch_ids
    else Ok batches in
  match r with
  | Raise e => (Raise e, s)
  | Ok batches =>
      let s' := set_batches s batches in
      if decide (length batches * batch_size s' = num_samples s')
      then (Ok batches, s')
      else (Raise AssertionError, s')
  end.

(** The first component of [__iter__] on its own: what a call returns or
    raises. *)
Definition iter_outcome (s : Sampler) : result (list (list nat)) :=
  let* batches :=
    (let* batches :=
       foldM (bucket_step s (bucket_indices (shuffle s) (buckets s) (manual_seed (epoch s))).1)
         (seq 0 (length (buckets s))) [] in
     if shuffle s then
       mapM (getitem batches)
         (randperm (length batches)
            (bucket_indices (shuffle s) (buckets s) (manual_seed (epoch s))).2).1
     else Ok batches) in
  if decide (length batches * batch_size s = num_samples s)
  then Ok batches else Raise AssertionError.
End Iter.

(** ** Tensors of the collator and of the fetch *)

Section Tensors.
(** The element type of the float tensors and its zero. *)
Context {F : Type}.
Variable fzero : F.

(** A 2-D tensor: its shape and its rows. *)
Record Tensor2 : Type := mkTensor2 {
  size0 : nat;
  size1 : nat;
  rows : list (list F)
}.

Definition tensor2_wf (t : Tensor2) : Prop :=
  length (rows t) = size0 t /\ Forall (fun r => length r = size1 t) (rows t).

(** [t[:, :n]]. *)
Definition cols_to (t : Tensor2) (n : nat) : Tensor2 :=
  {| size0 := size0 t;
     size1 := min n (size1 t);
     rows := map (fun r => slice_to r n) (rows t) |}.

(** A fetched sample: [(text, tone, f0, spec, wav)]. *)
Record Sample : Type := mkSample {
  text : list Z;
  tone : list Z;
  f0 : list F;
  spec : Tensor2;
  wav : Tensor2
}.

(** ** [TextAudioLoader.get_audio_text_pair], after the loads *)

(** The source writes the literal [256] for the number of waveform samples
    per spectrogram frame. *)
Definition samples_per_frame : nat := 256.

Definition get_audio_text_pair (text tone : list Z) (f0 : list F) (spec wav : Tensor2)
    : result Sample :=
  let len_text := length text in
  let len_tone := length tone in
  let len_spec := size1 spec in
  if decide (len_text = len_tone) then
    if decide (len_text <> len_spec) then
      let len_min := min len_text len_spec in
      let len_wav := len_min * samples_per_frame in
      Ok {| text := slice_to text len_min;
            tone := slice_to tone len_min;
            f0 := slice_to f0 len_min;
            spec := cols_to spec len_min;
            wav := cols_to wav len_wav |}
    else Ok {| text := text; tone := tone; f0 := f0; spec := spec; wav := wav |}
  else Raise AssertionError.

(** ** [TextAudioCollate.__call__] *)

(** [max(l)]: the empty sequence raises. *)
Definition py_max (l : list nat) : result nat :=
  match l with
  | [] => Raise ValueError
  | n :: l' => Ok (foldl Nat.max n l')
  end.

(** The index output of [torch.sort(values, dim=0, descending=True)]. *)
Variable sort_descending : list nat -> list nat.

(** The ten output buffers.  A length vector is allocated without being
    initialised: a slot is [None] until the loop writes it. *)
Record Buffers : Type := mkBuffers {
  text_padded : list (list Z);
  text_lengths : list (option nat);
  tone_padded : list (list Z);
  tone_lengths : list (option nat);
  f0_padded : list (list F);
  f0_lengths : list (option nat);
  spec_padded : list Tensor2;
  spec_lengths : list (option nat);
  wav_padded : list Tensor2;
  wav_lengths : list (option nat)
}.

(** A zero-filled tensor of shape [d0, d1]. *)
Definition zeros2 (d0 d1 : nat) : Tensor2 :=
  {| size0 := d0; size1 := d1; rows := replicate d0 (replicate d1 fzero) |}.

(** [v[i] = n]. *)
Definition set_length (v : list (option nat)) (i n : nat) : result (list (option nat)) :=
  if decide (i < length v) then Ok (<[i := Some n]> v) else Raise IndexError.

(** [buf[i, :len(src)] = src] on a 2-D buffer: the prefix of row [i] is
    overwritten, the rest of the row is kept. *)
Definition assign_prefix {A : Type} (buf : list (list A)) (i : nat) (src : list A)
    : result (list (list A)) :=
  let* row := getitem buf i in
  if decide (length src <= length row)
  then Ok (<[i := src ++ drop (length src) row]> buf)
  else Raise RuntimeError.

(** [buf[i, :, :src.size(1)] = src] on a 3-D buffer; a source with a single
    row is broadcast over the rows of the plane. *)
Definition assign_prefix2 (buf : list Tensor2) (i : nat) (src : Tensor2)
    : result (list Tensor2) :=
  let* plane := getitem buf i in
  let put := fun (s r : list F) => s ++ drop (length s) r in
  if decide (size1 src <= size1 plane) then
    if decide (size0 src = size0 plane) then
      Ok (<[i := {| size0 := size0 plane; size1 := size1 plane;
                    rows := zip_with put (rows src) (rows plane) |}]> buf)
    else
      match rows src with
      | [s] =>
          Ok (<[i := {| size0 := size0 plane; size1 := size1 plane;
                        rows := map (put s) (rows plane) |}]> buf)
      | _ => Raise RuntimeError
      end
  else Raise RuntimeError.

(** Body of the loop over [range(len(ids_sorted_decreasing))]. *)
Definition collate_row (batch : list Sample) (ids_sorted_decreasing : list nat)
    (b : Buffers) (i : nat) : result Buffers :=
  let* id := getitem ids_sorted_decreasing i in
  let* row := getitem batch id in
  let* text_padded' := assign_prefix (text_padded b) i (text row) in
  let* text_lengths' := set_length (text_lengths b) i (length (text row)) in
  let* tone_padded' := assign_prefix (tone_padded b) i (tone row) in
  let* tone_lengths' := set_length (tone_lengths b) i (length (tone row)) in
  let* f0_padded' := assign_prefix (f0_padded b) i (f0 row) in
  let* f0_lengths' := set_length (f0_lengths b) i (length (f0 row)) in
  let* spec_padded' := assign_prefix2 (spec_padded b) i (spec row) in
  let* spec_lengths' := set_length (spec_lengths b) i (size1 (spec row)) in
  let* wav_padded' := assign_prefix2 (wav_padded b) i (wav row) in
  let* wav_lengths' := set_length (wav_lengths b) i (size1 (wav row)) in
  Ok {| text_padded := text_padded'; text_lengths := text_lengths';
        tone_padded := tone_padded'; tone_lengths := tone_lengths';
        f0_padded := f0_padded'; f0_lengths := f0_lengths';
        spec_padded := spec_padded'; spec_lengths := spec_lengths';
        wav_padded := wav_padded'; wav_lengths := wav_lengths' |}.

(** The collator.  The second component is [ids_sorted_decreasing] when
    [return_ids] is set. *)
Definition __call__ (return_ids : bool) (batch : list Sample)
    : result (Buffers * option (list nat)) :=
  let ids_sorted_decreasing := sort_descending (map (fun x => size1 (spec x)) batch) in
  let* max_text_len := py_max (map (fun x => length (text x)) batch) in
  let* max_tone_len := py_max (map (fun x => length (tone x)) batch) in
  let* max_f0_len := py_max (map (fun x => length (f0 x)) batch) in
  let* max_spec_len := py_max (map (fun x => size1 (spec x)) batch) in
  let* max_wav_len := py_max (map (fun x => size1 (wav x)) batch) in
  let n := length batch in
  let* first := getitem batch 0 in
  let init :=
    {| text_padded := replicate n (replicate max_text_len 0%Z);
       text_lengths := replicate n None;
       tone_padded := replicate n (replicate max_tone_len 0%Z);
       tone_lengths := replicate n None;
       f0_padded := replicate n (replicate max_f0_len fzero);
       f0_lengths := replicate n None;
       spec_padded := replicate n (zeros2 (size0 (spec first)) max_spec_len);
       spec_lengths := replicate n None;
       wav_padded := replicate n (zeros2 1 max_wav_len);
       wav_lengths := replicate n None |} in
  let* out := foldM (collate_row batch ids_sorted_decreasing)
                (seq 0 (length ids_sorted_decreasing)) init in
  Ok (out, if return_ids then Some ids_sorted_decreasing else None).
(** ** The collator as the specification words it *)

(** [l] followed by zeros up to [n] items. *)
Definition pad_to {A : Type} (zero : A) (n : nat) (l : list A) : list A :=
  l ++ replicate (n - length l) zero.

(** A tensor of [d0] rows whose every row is zero-padded to [n] columns. *)
Definition pad_tensor (d0 n : nat) (t : Tensor2) : Tensor2 :=
  {| size0 := d0; size1 := n; rows := map (pad_to fzero n) (rows t) |}.

(** The maximum of a length over the batch. *)
Definition field_max (len : Sample -> nat) (batch : list Sample) : nat :=
  max_list (map len batch).

(** The output for [batch] once its samples are put in the order [sorted]:
    every field zero-padded to its maximum over the batch, every length
    vector holding the true lengths. *)
Definition collated (feature_dim : nat) (batch sorted : list Sample) : Buffers :=
  {| text_padded :=
       map (fun x => pad_to 0%Z (field_max (fun x => length (text x)) batch) (text x)) sorted;
     text_lengths := map (fun x => Some (length (text x))) sorted;
     tone_padded :=
       map (fun x => pad_to 0%Z (field_max (fun x => length (tone x)) batch) (tone x)) sorted;
     tone_lengths := map (fun x => Some (length (tone x))) sorted;
     f0_padded :=
       map (fun x => pad_to fzero (field_max (fun x => length (f0 x)) batch) (f0 x)) sorted;
     f0_lengths := map (fun x => Some (length (f0 x))) sorted;
     spec_padded :=
       map (fun x => pad_tensor feature_dim (field_max (fun x => size1 (spec x)) batch) (spec x))
         sorted;
     spec_lengths := map (fun x => Some (size1 (spec x))) sorted;
     wav_padded :=
       map (fun x => pad_tensor 1 (field_max (fun x => size1 (wav x)) batch) (wav x)) sorted;
     wav_lengths := map (fun x => Some (size1 (wav x))) sorted |}.

(** A sample as the collator expects it: well-formed tensors, a spectrogram
    of [feature_dim] rows, a waveform of one row. *)
Definition sample_ok (feature_dim : nat) (x : Sample) : Prop :=
  tensor2_wf (spec x) /\ tensor2_wf (wav x)
  /\ size0 (spec x) = feature_dim /\ size0 (wav x) = 1.

(** The buffers as allocated and zeroed, before the loop. *)
Definition zero_buffers (feature_dim : nat) (batch : list Sample) : Buffers :=
  let n := length batch in
  {| text_padded := replicate n (replicate (field_max (fun x => length (text x)) batch) 0%Z);
     text_lengths := replicate n None;
     tone_padded := replicate n (replicate (field_max (fun x => length (tone x)) batch) 0%Z);
     tone_lengths := replicate n None;
     f0_padded := replicate n (replicate (field_max (fun x => length (f0 x)) batch) fzero);
     f0_lengths := replicate n None;
     spec_padded :=
       replicate n (zeros2 feature_dim (field_max (fun x => size1 (spec x)) batch));
     spec_lengths := replicate n None;
     wav_padded := replicate n (zeros2 1 (field_max (fun x => size1 (wav x)) batch));
     wav_lengths := replicate n None |}.

(** The buffers between two rounds of the loop: the first [m] rows of every
    buffer are as in [fin], the others as in [init]. *)
Definition buffers_at (m : nat) (fin init : Buffers) : Buffers :=
  {| text_padded := take m (text_padded fin) ++ drop m (text_padded init);
     text_lengths := take m (text_lengths fin) ++ drop m (text_lengths init);
     tone_padded := take m (tone_padded fin) ++ drop m (tone_padded init);
     tone_lengths := take m (tone_lengths fin) ++ drop m (tone_lengths init);
     f0_padded := take m (f0_padded fin) ++ drop m (f0_padded init);
     f0_lengths := take m (f0_lengths fin) ++ drop m (f0_lengths init);
     spec_padded := take m (spec_padded fin) ++ drop m (spec_padded init);
     spec_lengths := take m (spec_lengths fin) ++ drop m (spec_lengths init);
     wav_padded := take m (wav_padded fin) ++ drop m (wav_padded init);
     wav_lengths := take m (wav_lengths fin) ++ drop m (wav_lengths init) |}.
End Tensors.

Arguments Tensor2 F : clear implicits.
Arguments Sample F : clear implicits.
Arguments Buffers F : clear implicits.

(** ** Concrete instances used to run the model *)

(** A generator whose state counts the draws made so far: an even state
    draws the identity order, an odd state the reversed order. *)
Definition flip_seed (e : Z) : nat := Z.to_nat e.

Definition flip_randperm (n : nat) (g : nat) : list nat * nat :=
  (if Nat.even g then seq 0 n else rev (seq 0 n), S g).

(** The sampler that [__init__] builds from nine sample lengths, batch size
    2, boundaries [[0, 10, 20, 30]], two replicas, rank 1. *)
Definition demo_sampler (shuffle : bool) : Sampler :=
  {| lengths := [15; 12; 18; 5; 25; 31; 0; 7; 8]%Z;
     batch_size := 2;
     boundaries := [0; 10; 20; 30]%Z;
     num_replicas := 2;
     rank := 1;
     shuffle := shuffle;
     epoch := 0%Z;
     buckets := [[3; 7; 8]; [0; 1; 2]; [4]];
     num_samples_per_bucket := [4; 4; 4];
     total_size := 12;
     num_samples := 6;
     batches := None |}.

(** A stable argsort in descending order, by insertion. *)
Fixpoint insert_desc (v : nat -> nat) (i : nat) (l : list nat) : list nat :=
  match l with
  | [] => [i]
  | j :: l' => if decide (v j <= v i) then i :: j :: l' else j :: insert_desc v i l'
  end.

Definition argsort_desc (values : list nat) : list nat :=
  foldr (insert_desc (fun i => default 0 (values !! i))) [] (seq 0 (length values)).

(** A sample of [n] frames with two spectrogram rows and two waveform
    samples per frame. *)
Definition demo_sample (n : nat) : Sample nat :=
  {| text := replicate n 1%Z;
     tone := replicate n 2%Z;
     f0 := replicate n 3;
     spec := {| size0 := 2; size1 := n; rows := replicate 2 (replicate n 4) |};
     wav := {| size0 := 1; size1 := 2 * n; rows := [replicate (2 * n) 5] |} |}.

Definition demo_batch : list (Sample nat) := [demo_sample 5; demo_sample 3; demo_sample 7].

(** ** Predicates of the specification *)

(** Sample length [x] lies in the interval of bucket [i]:
    [boundaries[i] < x <= boundaries[i+1]]. *)
Definition in_bucket (boundaries : list Z) (x : Z) (i : nat) : Prop :=
  exists bi bj : Z,
    boundaries !! i = Some bi /\ boundaries !! (i + 1) = Some bj /\ (bi < x <= bj)%Z.

(** [x] lies outside all intervals: [x <= boundaries[0]] or
    [x > boundaries[-1]]. *)
Definition out_of_range (boundaries : list Z) (x : Z) : Prop :=
  exists b0 bl : Z,
    head boundaries = Some b0 /\ last boundaries = Some bl /\ (x <= b0 \/ bl < x)%Z.

(** Two sampler objects of one configuration: they agree on every attribute
    but the epoch and the cached batch list. *)
Definition same_config (s1 s2 : Sampler) : Prop :=
  lengths s1 = lengths s2 /\ batch_size s1 = batch_size s2
  /\ boundaries s1 = boundaries s2 /\ num_replicas s1 = num_replicas s2
  /\ rank s1 = rank s2 /\ shuffle s1 = shuffle s2
  /\ buckets s1 = buckets s2
  /\ num_samples_per_bucket s1 = num_samples_per_bucket s2
  /\ total_size s1 = total_size s2 /\ num_samples s1 = num_samples s2.

(** What [__init__] establishes and [__iter__] relies on. *)
Definition sampler_inv (s : Sampler) : Prop :=
  Forall2 (fun bucket p =>
             padded_count (num_replicas s) (batch_size s) (length bucket) = Ok p)
    (buckets s) (num_samples_per_bucket s)
  /\ total_size s = py_sum (num_samples_per_bucket s)
  /\ num_replicas s <> 0
  /\ num_samples s = total_size s / num_replicas s.

(** ** The rest of the sampler *)

(** [DistributedBucketSampler.__len__]. *)
Definition __len__ (s : Sampler) : result nat :=
  py_floordiv (num_samples s) (batch_size s).

(** One removal made by the pruning loop: an empty bucket at an index
    [i > 0] is popped, with the boundary at [i + 1]. *)
Definition pop_step (st st' : list (list nat) * list Z) : Prop :=
  exists i, 0 < i /\ st.1 !! i = Some [] /\ st' = (delete i st.1, delete (i + 1) st.2).

(** The buckets once the first loop of [_create_buckets] has handled the
    samples below [i]: one bucket per interval, each holding in ascending
    order the samples below [i] for which the search answers its index. *)
Definition buckets_upto (boundaries lengths : list Z) (i : nat)
    (buckets : list (list nat)) : Prop :=
  length buckets = length boundaries - 1
  /\ forall j bucket, buckets !! j = Some bucket ->
       StronglySorted lt bucket
       /\ forall k, k ∈ bucket <->
             k < i /\ exists x, lengths !! k = Some x
                                /\ _bisect boundaries x 0 None = Ok (Z.of_nat j).

(** Every sample of every bucket has its length in the interval the boundary
    list gives to that bucket. *)
Definition buckets_fit (lengths : list Z) (st : list (list nat) * list Z) : Prop :=
  forall j bucket k, st.1 !! j = Some bucket -> k ∈ bucket ->
    exists x, lengths !! k = Some x /\ in_bucket st.2 x j.

(** ** [TextAudioLoader._filter] *)

Section Loader.
(** Strings are kept abstract: [str_len] is [len] on them, [getsize] is
    [os.path.getsize], which may raise.  An entry of the file list is the
    list of the fields of one line. *)
Context {Str : Type}.
Variable str_len : Str -> nat.
Variable getsize : Str -> result nat.

(** Body of the loop.  Unpacking an entry that does not have exactly three
    fields raises; an entry whose text length is within the limits is
    appended to the new list, and its spectrogram length
    [getsize(audiopath) // (2 * hop_length)] to the lengths. *)
Definition filter_step (min_text_len max_text_len hop_length : nat)
    (st : list (list Str) * list Z) (entry : list Str)
    : result (list (list Str) * list Z) :=
  match entry with
  | [audiopath; text; tone] =>
      if bool_decide (min_text_len <= str_len text)
         && bool_decide (str_len text <= max_text_len)
      then
        let audiopaths_and_text_new := st.1 ++ [[audiopath; text; tone]] in
        let* size := getsize audiopath in
        let* len := py_floordiv size (2 * hop_length) in
        Ok (audiopaths_and_text_new, st.2 ++ [Z.of_nat len])
      else Ok st
  | _ => Raise ValueError
  end.

(** [_filter] returns the new [audiopaths_and_text] and [lengths]. *)
Definition _filter (min_text_len max_text_len hop_length : nat)
    (audiopaths_and_text : list (list Str)) : result (list (list Str) * list Z) :=
  foldM (filter_step min_text_len max_text_len hop_length) audiopaths_and_text ([], []).

(** The entries whose text length is within the limits. *)
Definition text_in_range (min_text_len max_text_len : nat) (entry : list Str) : bool :=
  match entry !! 1 with
  | Some text =>
      bool_decide (min_text_len <= str_len text) && bool_decide (str_len text <= max_text_len)
  | None => false
  end.

(** The length stored for a kept entry. *)
Definition stored_length (hop_length : nat) (entry : list Str) (len : Z) : Prop :=
  exists audiopath size,
    entry !! 0 = Some audiopath /\ getsize audiopath = Ok size
    /\ len = Z.of_nat (size / (2 * hop_length)).
End Loader.

(** The sampler that [__init__] builds from three sample lengths within
    [(10, 20]] and the boundaries [[0, 10, 20, 30]]: its first bucket is
    empty. *)
Definition gap_sampler (shuffle : bool) : Sampler :=
  {| lengths := [15; 12; 18]%Z;
     batch_size := 1;
     boundaries := [0; 10; 20]%Z;
     num_replicas := 1;
     rank := 0;
     shuffle := shuffle;
     epoch := 0%Z;
     buckets := [[]; [0; 1; 2]];
     num_samples_per_bucket := [0; 3];
     total_size := 3;
     num_samples := 3;
     batches := None |}.

(** * Proofs *)

(** ** The result monad *)

Lemma bind_Ok {A B : Type} (r : result A) (k : A -> result B) (b : B) :
  bind r k = Ok b -> exists a, r = Ok a /\ k a = Ok b.
Proof. destruct r as [a|e]; simpl; [eauto | discriminate]. Qed.

Ltac inv_bind H :=
  let a := fresh "a" in
  let Ha := fresh "Ha" in
  apply bind_Ok in H; destruct H as (a & Ha & H).

Lemma getitem_Ok {A : Type} (l : list A) (i : nat) (a : A) :
  getitem l i = Ok a <-> l !! i = Some a.
Proof. unfold getitem. destruct (l !! i); split; congruence. Qed.

Lemma getitem_lt {A : Type} (l : list A) (i : nat) :
  i < length l -> exists a, getitem l i = Ok a /\ l !! i = Some a.
Proof.
  intros Hi. destruct (lookup_lt_is_Some_2 l i Hi) as [a Ha].
  exists a. split; [by apply getitem_Ok | done].
Qed.

(** ** [_bisect] *)

Lemma bisect_mid_bounds (lo hi : nat) :
  lo < hi -> lo <= (hi + lo) / 2 < hi.
Proof.
  intros Hlt. split.
  - apply Nat.div_le_lower_bound; lia.
  - apply Nat.Div0.div_lt_upper_bound; lia.
Qed.

(** The defining equation, in the shape of the source. *)
Lemma bisect_unfold (boundaries : list Z) (x : Z) (lo : nat) (hi_arg : option nat) :
  _bisect boundaries x lo hi_arg =
  let hi := bisect_hi boundaries hi_arg in
  if decide (lo < hi) then
    let mid := (hi + lo) / 2 in
    let* b_mid := getitem boundaries mid in
    let* found :=
      (if bool_decide (b_mid < x)%Z
       then let* b_next := getitem boundaries (mid + 1) in
            Ok (bool_decide (x <= b_next)%Z)
       else Ok false) in
    if found then Ok (Z.of_nat mid)
    else
      let* b_mid' := getitem boundaries mid in
      if bool_decide (x <= b_mid')%Z
      then _bisect boundaries x lo (Some mid)
      else _bisect boundaries x (mid + 1) (Some hi)
  else Ok (-1)%Z.
Proof.
  rewrite _bisect_equation_1. simpl.
  destruct (decide (lo < bisect_hi boundaries hi_arg)); reflexivity.
Qed.

(** The default upper bound is [len(boundaries) - 1]. *)
Lemma bisect_default (boundaries : list Z) (x : Z) (lo : nat) :
  _bisect boundaries x lo None = _bisect boundaries x lo (Some (length boundaries - 1)).
Proof. rewrite (bisect_unfold _ _ _ None), (bisect_unfold _ _ _ (Some _)). reflexivity. Qed.

(** Within the list the search never raises, and what it returns is the
    sentinel or an index of the searched interval. *)
Lemma bisect_returns (boundaries : list Z) (x : Z) (n lo hi : nat) :
  hi - lo <= n -> hi < length boundaries ->
  exists r : Z, _bisect boundaries x lo (Some hi) = Ok r
                /\ (r = (-1)%Z \/ (Z.of_nat lo <= r < Z.of_nat hi)%Z).
Proof.
  revert lo hi. induction n as [|n IH]; intros lo hi Hn Hhi;
    rewrite bisect_unfold; cbv zeta; unfold bisect_hi;
    destruct (decide (lo < hi)) as [Hlt|Hge];
    try (exists (-1)%Z; split; [reflexivity | by left]); [lia|].
  pose proof (bisect_mid_bounds lo hi Hlt) as Hmid.
  destruct (getitem_lt boundaries ((hi + lo) / 2)) as (bm & -> & _); [lia|].
  destruct (getitem_lt boundaries ((hi + lo) / 2 + 1)) as (bn & Hbn & _); [lia|].
  cbn [bind]. destruct (bool_decide (bm < x)%Z) eqn:E1.
  - rewrite Hbn. cbn [bind]. destruct (bool_decide (x <= bn)%Z) eqn:E2.
    + eexists; split; [reflexivity | right; lia].
    + apply bool_decide_eq_true in E1.
      rewrite bool_decide_eq_false_2 by lia.
      destruct (IH ((hi + lo) / 2 + 1) hi) as (r & Hr & Hrange); [lia | lia |].
      exists r. split; [done | lia].
  - apply bool_decide_eq_false in E1. cbn [bind].
    rewrite bool_decide_eq_true_2 by lia.
    destruct (IH lo ((hi + lo) / 2)) as (r & Hr & Hrange); [lia | lia |].
    exists r. split; [done | lia].
Qed.

Lemma bisect_default_returns (boundaries : list Z) (x : Z) :
  exists r : Z, _bisect boundaries x 0 None = Ok r
                /\ (r = (-1)%Z \/ (0 <= r < Z.of_nat (length boundaries - 1))%Z).
Proof.
  rewrite bisect_default. destruct boundaries as [|b bs].
  - rewrite bisect_unfold. cbn. exists (-1)%Z. split; [done | by left].
  - destruct (bisect_returns (b :: bs) x (length (b :: bs)) 0 (length (b :: bs) - 1))
      as (r & Hr & Hrange); [lia | simpl; lia |].
    exists r. split; [done | lia].
Qed.

(** C9.  [_bisect] terminates on every length [x] and every pair of bounds
    [lo <= hi] within the boundary list: both recursive calls are made on a
    strictly smaller interval (the measure of the well-founded recursion that
    defines [_bisect]), and the call returns a value, the sentinel or an index
    between the bounds, instead of raising. *)
Theorem bisect_terminates (boundaries : list Z) (x : Z) (lo hi : nat) :
  lo <= hi -> hi < length boundaries ->
  (lo < hi ->
   let mid := (hi + lo) / 2 in
   bisect_measure boundaries lo (Some mid) < bisect_measure boundaries lo (Some hi)
   /\ bisect_measure boundaries (mid + 1) (Some hi) < bisect_measure boundaries lo (Some hi))
  /\ exists r : Z, _bisect boundaries x lo (Some hi) = Ok r
                   /\ (r = (-1)%Z \/ (Z.of_nat lo <= r < Z.of_nat hi)%Z).
Proof.
  intros Hle Hhi. split.
  - intros Hlt mid. unfold bisect_measure. simpl.
    pose proof (bisect_mid_bounds lo hi Hlt). subst mid. lia.
  - apply (bisect_returns boundaries x (hi - lo)); [lia | done].
Qed.

Lemma bisect_terminates_witness :
  (0 < 3 ->
   let mid := (3 + 0) / 2 in
   bisect_measure [0; 10; 20; 30]%Z 0 (Some mid) < bisect_measure [0; 10; 20; 30]%Z 0 (Some 3)
   /\ bisect_measure [0; 10; 20; 30]%Z (mid + 1) (Some 3)
      < bisect_measure [0; 10; 20; 30]%Z 0 (Some 3))
  /\ exists r : Z, _bisect [0; 10; 20; 30]%Z 15%Z 0 (Some 3) = Ok r
                   /\ (r = (-1)%Z \/ (Z.of_nat 0 <= r < Z.of_nat 3)%Z).
Proof.
  apply (bisect_terminates [0; 10; 20; 30]%Z 15%Z 0 3); simpl; lia.
Defined.

(** ** Correctness of the interval search *)

Lemma sorted_lookup_le (l : list Z) (i j : nat) (a b : Z) :
  Sorted Z.le l -> i <= j -> l !! i = Some a -> l !! j = Some b -> (a <= b)%Z.
Proof.
  intros Hs. apply Sorted_StronglySorted in Hs; [| intros ? ? ?; lia].
  revert i j. induction Hs as [|c l Hs IH Hall]; intros i j Hij Hi Hj.
  - rewrite lookup_nil in Hi. discriminate.
  - destruct i as [|i], j as [|j]; simpl in *; try lia.
    + injection Hi as <-. injection Hj as <-. lia.
    + injection Hi as <-. rewrite Forall_forall in Hall.
      apply Hall. eapply list_elem_of_lookup_2. eassumption.
    + eapply IH; [| eassumption | eassumption]. lia.
Qed.

Lemma in_bucket_unique (boundaries : list Z) (x : Z) (i j : nat) :
  Sorted Z.le boundaries ->
  in_bucket boundaries x i -> in_bucket boundaries x j -> i = j.
Proof.
  intros Hs (ai & bi & Hai & Hbi & Hi) (aj & bj & Haj & Hbj & Hj).
  destruct (Nat.lt_trichotomy i j) as [Hlt | [Heq | Hgt]]; [exfalso | done | exfalso].
  - pose proof (sorted_lookup_le boundaries (i + 1) j bi aj Hs ltac:(lia) Hbi Haj). lia.
  - pose proof (sorted_lookup_le boundaries (j + 1) i bj ai Hs ltac:(lia) Hbj Hai). lia.
Qed.

(** Between the first and the last boundary some interval takes [x]. *)
Lemma in_bucket_exists (boundaries : list Z) (x b0 bl : Z) :
  head boundaries = Some b0 -> last boundaries = Some bl ->
  (b0 < x <= bl)%Z -> exists i, in_bucket boundaries x i.
Proof.
  revert b0. induction boundaries as [|b bs IH]; intros b0 Hh Hl Hx; [discriminate|].
  simpl in Hh. injection Hh as ->.
  destruct bs as [|b1 bs].
  - simpl in Hl. injection Hl as ->. lia.
  - destruct (decide (x <= b1)%Z) as [Hle|Hgt].
    + exists 0, b0, b1. simpl. repeat split; [lia | done].
    + destruct (IH b1) as (i & ai & bi & Hai & Hbi & Hi); [done | | lia |].
      { rewrite last_cons in Hl.
        destruct (last (b1 :: bs)) eqn:E; [done | apply last_None in E; discriminate]. }
      exists (S i), ai, bi. simpl. simpl in Hai, Hbi. auto.
Qed.

Lemma in_bucket_in_range (boundaries : list Z) (x : Z) (i : nat) :
  Sorted Z.le boundaries -> in_bucket boundaries x i -> ~ out_of_range boundaries x.
Proof.
  intros Hs (ai & bi & Hai & Hbi & Hi) (b0 & bl & Hh & Hl & Hout).
  rewrite head_lookup in Hh. rewrite last_lookup in Hl.
  pose proof (lookup_lt_Some _ _ _ Hbi) as Hlen.
  pose proof (sorted_lookup_le boundaries 0 i b0 ai Hs ltac:(lia) Hh Hai).
  pose proof (sorted_lookup_le boundaries (i + 1) (pred (length boundaries)) bi bl Hs
                ltac:(lia) Hbi Hl).
  lia.
Qed.

(** What a call on the interval [lo, hi) answers, for ascending boundaries. *)
Lemma bisect_search (boundaries : list Z) (x : Z) (n lo hi : nat) :
  Sorted Z.le boundaries -> hi - lo <= n -> hi < length boundaries ->
  (exists i, _bisect boundaries x lo (Some hi) = Ok (Z.of_nat i)
             /\ lo <= i < hi /\ in_bucket boundaries x i)
  \/ (_bisect boundaries x lo (Some hi) = Ok (-1)%Z
      /\ forall i, lo <= i < hi -> ~ in_bucket boundaries x i).
Proof.
  intros Hs. revert lo hi. induction n as [|n IH]; intros lo hi Hn Hhi;
    rewrite bisect_unfold; cbv zeta; unfold bisect_hi;
    destruct (decide (lo < hi)) as [Hlt|Hge];
    try (right; split; [reflexivity | intros; lia]); [lia|].
  pose proof (bisect_mid_bounds lo hi Hlt) as Hmid.
  set (mid := (hi + lo) / 2) in *.
  destruct (getitem_lt boundaries mid) as (bm & -> & Hbm); [lia|].
  destruct (getitem_lt boundaries (mid + 1)) as (bn & Hbn & Hbn'); [lia|].
  cbn [bind]. destruct (bool_decide (bm < x)%Z) eqn:E1.
  - apply bool_decide_eq_true in E1.
    rewrite Hbn. cbn [bind]. destruct (bool_decide (x <= bn)%Z) eqn:E2.
    + apply bool_decide_eq_true in E2.
      left. exists mid. split; [done|]. split; [lia|]. exists bm, bn. auto.
    + apply bool_decide_eq_false in E2.
      rewrite bool_decide_eq_false_2 by lia.
      destruct (IH (mid + 1) hi) as [(i & Hr & Hrange & Hin) | (Hr & Hnone)]; [lia | lia | |].
      * left. exists i. split; [done|]. split; [lia | done].
      * right. split; [done|]. intros i Hi.
        destruct (decide (mid + 1 <= i)) as [Hge|Hlow]; [apply Hnone; lia|].
        intros (ai & bi & Hai & Hbi & Hx).
        pose proof (sorted_lookup_le boundaries (i + 1) (mid + 1) bi bn Hs
                      ltac:(lia) Hbi Hbn').
        lia.
  - apply bool_decide_eq_false in E1. cbn [bind].
    rewrite bool_decide_eq_true_2 by lia.
    destruct (IH lo mid) as [(i & Hr & Hrange & Hin) | (Hr & Hnone)]; [lia | lia | |].
    + left. exists i. split; [done|]. split; [lia | done].
    + right. split; [done|]. intros i Hi.
      destruct (decide (i < mid)) as [Hlow|Hge]; [apply Hnone; lia|].
      intros (ai & bi & Hai & Hbi & Hx).
      pose proof (sorted_lookup_le boundaries mid i bm ai Hs ltac:(lia) Hbm Hai).
      lia.
Qed.

(** An interval that takes [x] is the one the search answers. *)
Lemma bisect_found (boundaries : list Z) (x : Z) (i : nat) :
  Sorted Z.le boundaries -> in_bucket boundaries x i ->
  _bisect boundaries x 0 None = Ok (Z.of_nat i).
Proof.
  intros Hs Hi. rewrite bisect_default.
  assert (i < length boundaries - 1) as Hlt.
  { destruct Hi as (ai & bi & _ & Hbi & _). apply lookup_lt_Some in Hbi. lia. }
  destruct (bisect_search boundaries x (length boundaries - 1) 0 (length boundaries - 1)
              Hs ltac:(lia) ltac:(lia)) as [(i0 & Hr & _ & Hin) | (_ & Hnone)].
  - by rewrite (in_bucket_unique boundaries x i i0 Hs Hi Hin).
  - exfalso. apply (Hnone i); [lia | done].
Qed.

(** C4.  For an ascending boundary list with at least two entries and every
    sample length [x], the search started with the default bounds answers
    index [i] exactly when [boundaries[i] < x <= boundaries[i+1]], and answers
    the sentinel [-1] exactly when [x <= boundaries[0]] or
    [x > boundaries[-1]]. *)
Theorem bisect_correct (boundaries : list Z) (x : Z) :
  Sorted Z.le boundaries -> 2 <= length boundaries ->
  (forall i : nat,
      _bisect boundaries x 0 None = Ok (Z.of_nat i) <-> in_bucket boundaries x i)
  /\ (_bisect boundaries x 0 None = Ok (-1)%Z <-> out_of_range boundaries x).
Proof.
  intros Hs Hlen. rewrite bisect_default.
  set (hi := length boundaries - 1).
  destruct (bisect_search boundaries x hi 0 hi Hs ltac:(lia) ltac:(lia))
    as [(i0 & Hr & Hrange & Hin) | (Hr & Hnone)]; rewrite Hr.
  - split.
    + intros i. split.
      * intros Heq. injection Heq as Heq. apply Nat2Z.inj in Heq. by subst.
      * intros Hi. by rewrite (in_bucket_unique boundaries x i i0 Hs Hi Hin).
    + split; [intros Heq; injection Heq; lia|].
      intros Hout. exfalso. by eapply in_bucket_in_range.
  - split.
    + intros i. split; [intros Heq; injection Heq; lia|].
      intros Hi. exfalso. apply (Hnone i); [| done].
      destruct Hi as (ai & bi & Hai & Hbi & _).
      apply lookup_lt_Some in Hbi. lia.
    + split; [| done]. intros _.
      destruct (head boundaries) as [b0|] eqn:Hh;
        [| destruct boundaries; [simpl in Hlen; lia | discriminate]].
      destruct (last boundaries) as [bl|] eqn:Hl;
        [| apply last_None in Hl; subst; simpl in Hlen; lia].
      exists b0, bl. split; [done|]. split; [done|].
      destruct (decide (x <= b0)%Z) as [|Hgt]; [by left|].
      destruct (decide (bl < x)%Z) as [|Hle]; [by right|].
      exfalso. destruct (in_bucket_exists boundaries x b0 bl Hh Hl ltac:(lia)) as (i & Hi).
      apply (Hnone i); [| done].
      destruct Hi as (ai & bi & Hai & Hbi & _).
      apply lookup_lt_Some in Hbi. lia.
Qed.

Lemma bisect_correct_witness :
  (forall i : nat,
      _bisect [0; 10; 20; 30]%Z 15%Z 0 None = Ok (Z.of_nat i)
      <-> in_bucket [0; 10; 20; 30]%Z 15%Z i)
  /\ (_bisect [0; 10; 20; 30]%Z 15%Z 0 None = Ok (-1)%Z
      <-> out_of_range [0; 10; 20; 30]%Z 15%Z).
Proof.
  apply (bisect_correct [0; 10; 20; 30]%Z 15%Z); [repeat constructor; lia | simpl; lia].
Defined.

(** ** Loops that may raise *)

Lemma mapM_Forall2 {A B : Type} (f : A -> result B) (l : list A) (l' : list B) :
  mapM f l = Ok l' <-> Forall2 (fun a b => f a = Ok b) l l'.
Proof.
  revert l'. induction l as [|a l IH]; intros l'; simpl.
  - split; [intros [= <-]; constructor | intros H; by inversion H].
  - split.
    + intros H. inv_bind H. inv_bind H. injection H as <-.
      constructor; [done | by apply IH].
    + intros H. inversion H as [|? b ? bs Hb Hbs]; subst.
      rewrite Hb. simpl. apply IH in Hbs. rewrite Hbs. reflexivity.
Qed.

Lemma mapM_total {A B : Type} (f : A -> result B) (l : list A) :
  Forall (fun a => exists b, f a = Ok b) l -> exists l', mapM f l = Ok l'.
Proof.
  induction 1 as [|a l [b Hb] _ [l' Hl']]; simpl; [by eexists|].
  rewrite Hb, Hl'. simpl. by eexists.
Qed.

(** A loop whose body appends to the accumulator collects what each round
    contributes. *)
Lemma foldM_app {A X : Type} (f : list X -> A -> result (list X)) (g : A -> result (list X)) :
  (forall acc a, f acc a = let* xs := g a in Ok (acc ++ xs)) ->
  forall l acc, foldM f l acc = let* xss := mapM g l in Ok (acc ++ concat xss).
Proof.
  intros Hf. induction l as [|a l IH]; intros acc; simpl.
  - by rewrite app_nil_r.
  - rewrite Hf. destruct (g a) as [xs|e]; simpl; [| done].
    rewrite IH. destruct (mapM g l) as [xss|e]; simpl; [| done].
    by rewrite app_assoc.
Qed.

(** ** [_create_buckets]: the padded counts *)

Lemma padded_count_Ok (num_replicas batch_size len_bucket p : nat) :
  padded_count num_replicas batch_size len_bucket = Ok p ->
  let total_batch_size := num_replicas * batch_size in
  0 < total_batch_size
  /\ p = len_bucket + (total_batch_size - len_bucket mod total_batch_size) mod total_batch_size.
Proof.
  unfold padded_count, py_mod. cbv zeta.
  destruct (decide (num_replicas * batch_size = 0)) as [|Hne]; simpl; [discriminate|].
  intros [= <-]. split; [lia | reflexivity].
Qed.

Lemma create_buckets_counts (lengths boundaries : list Z) (batch_size num_replicas : nat)
    (bks : list (list nat)) (counts : list nat) (boundaries' : list Z) :
  _create_buckets lengths boundaries batch_size num_replicas = Ok (bks, counts, boundaries') ->
  Forall2 (fun bucket p => padded_count num_replicas batch_size (length bucket) = Ok p)
    bks counts.
Proof.
  unfold _create_buckets. intros H.
  inv_bind H. inv_bind H. inv_bind H. injection H as <- <- <-.
  by apply mapM_Forall2 in Ha1.
Qed.

(** C5.  For every surviving bucket [i], the padded count computed at
    construction is
    [len(buckets[i]) + ((R*B - len(buckets[i]) % (R*B)) % (R*B))] with
    [R = num_replicas] and [B = batch_size] (the product being positive
    whenever construction returns with a bucket); when [len(buckets[i])] is
    already a multiple of [R*B], the padded count is [len(buckets[i])]. *)
Theorem padded_counts_formula (lengths boundaries : list Z) (batch_size num_replicas : nat)
    (bks : list (list nat)) (counts : list nat) (boundaries' : list Z) :
  _create_buckets lengths boundaries batch_size num_replicas = Ok (bks, counts, boundaries') ->
  length counts = length bks
  /\ forall (i : nat) (bucket : list nat),
       bks !! i = Some bucket ->
       let n := length bucket in
       let total_batch_size := num_replicas * batch_size in
       0 < total_batch_size
       /\ counts !! i = Some (n + (total_batch_size - n mod total_batch_size) mod total_batch_size)
       /\ (n mod total_batch_size = 0 -> counts !! i = Some n).
Proof.
  intros H. apply create_buckets_counts in H. split.
  - symmetry. by eapply Forall2_length.
  - intros i bucket Hi n tbs.
    destruct (Forall2_lookup_l _ _ _ _ _ H Hi) as (p & Hp & Hpad).
    apply padded_count_Ok in Hpad. destruct Hpad as [Hpos ->].
    subst n tbs. split; [done|]. split; [done|].
    intros Hmod. rewrite Hp, Hmod, Nat.sub_0_r, Nat.Div0.mod_same. f_equal. lia.
Qed.

Lemma padded_counts_formula_witness :
  length [4; 4; 4] = length [[3]; [0; 1; 2]; [4]]
  /\ forall (i : nat) (bucket : list nat),
       [[3]; [0; 1; 2]; [4]] !! i = Some bucket ->
       let n := length bucket in
       let total_batch_size := 2 * 2 in
       0 < total_batch_size
       /\ [4; 4; 4] !! i = Some (n + (total_batch_size - n mod total_batch_size) mod total_batch_size)
       /\ (n mod total_batch_size = 0 -> [4; 4; 4] !! i = Some n).
Proof.
  apply (padded_counts_formula [15; 12; 18; 5; 25; 31; 0]%Z [0; 10; 20; 30]%Z 2 2
           [[3]; [0; 1; 2]; [4]] [4; 4; 4] [0; 10; 20; 30]%Z).
  vm_compute. reflexivity.
Defined.

(** ** [_create_buckets]: the empty first bucket *)

Lemma assign_buckets_middle (lengths : list Z) (i : nat) (b1 : list nat) :
  Forall (fun x => 10 < x <= 20)%Z lengths ->
  assign_buckets [0; 10; 20; 30]%Z i lengths [[]; b1; []]
  = Ok [[]; b1 ++ seq i (length lengths); []].
Proof.
  intros Hall. revert i b1. induction Hall as [|x lengths Hx _ IH]; intros i b1.
  - simpl. by rewrite app_nil_r.
  - assert (_bisect [0; 10; 20; 30]%Z x 0 None = Ok (Z.of_nat 1)) as Hb.
    { apply bisect_found; [repeat constructor; lia |].
      exists 10%Z, 20%Z. auto. }
    cbn [assign_buckets]. rewrite Hb.
    change (bind (Ok (Z.of_nat 1)) ?k) with (k (Z.of_nat 1)). cbv beta.
    change (Z.to_nat (Z.of_nat 1)) with 1.
    rewrite bool_decide_eq_true_2 by lia.
    change (append_at [[]; b1; []] 1 i) with (Ok [[]; b1 ++ [i]; @nil nat]).
    cbn [bind]. rewrite IH. cbn [length seq]. by rewrite <- app_assoc.
Qed.

(** Whenever a non-empty batch of samples falls into [(10, 20]] only, the
    last bucket goes and the first one stays, empty. *)
Lemma create_buckets_middle (lengths : list Z) (batch_size num_replicas : nat) :
  lengths <> [] -> Forall (fun x => 10 < x <= 20)%Z lengths ->
  0 < num_replicas * batch_size ->
  exists counts,
    _create_buckets lengths [0; 10; 20; 30]%Z batch_size num_replicas
    = Ok ([[]; seq 0 (length lengths)], counts, [0; 10; 20]%Z).
Proof.
  intros Hne Hall Hpos. unfold _create_buckets.
  change (replicate (length [0; 10; 20; 30]%Z - 1) []) with [@nil nat; []; []].
  rewrite assign_buckets_middle by done.
  destruct lengths as [|x rest]; [done|].
  cbn [bind app length Nat.sub]. cbn. 
  unfold padded_count, py_mod.
  destruct (decide (num_replicas * batch_size = 0)); [lia|].
  cbn. eexists. reflexivity.
Qed.

(** C3 (on the code).  With boundaries [[0, 10, 20, 30]] and the sample
    lengths [[15, 12, 18]], all in [(10, 20]], construction pops the empty last
    bucket and reduces the boundaries to [[0, 10, 20]], but it returns two
    buckets, not one: the loop stops before index [0] and the empty first
    bucket stays.  Iterating the sampler so built raises [ZeroDivisionError]
    on that bucket, for every generator and with or without shuffling. *)
Theorem create_buckets_keeps_empty_first :
  _create_buckets [15; 12; 18]%Z [0; 10; 20; 30]%Z 1 1
  = Ok ([[]; [0; 1; 2]], [0; 3], [0; 10; 20]%Z)
  /\ forall (Gen : Type) (manual_seed : Z -> Gen) (randperm : nat -> Gen -> list nat * Gen)
            (shuffle : bool),
       exists s, __init__ [15; 12; 18]%Z 1 [0; 10; 20; 30]%Z 1 0 shuffle = Ok s
                 /\ length (buckets s) = 2
                 /\ (__iter__ Gen manual_seed randperm s).1 = Raise ZeroDivisionError.
Proof.
  split; [vm_compute; reflexivity|].
  intros Gen manual_seed randperm sh. eexists. split; [vm_compute; reflexivity|].
  split; [reflexivity|].
  unfold __iter__. cbn [epoch shuffle buckets bucket_indices length].
  destruct sh; cbn [bucket_indices length].
  - destruct (randperm 0 (manual_seed 0%Z)) as [p0 g0].
    destruct (randperm 3 g0) as [p1 g1]. reflexivity.
  - reflexivity.
Qed.

(** ** Cyclic extension and strided slices *)

Lemma list_times_length {A : Type} (l : list A) (k : nat) :
  length (list_times l k) = k * length l.
Proof. induction k as [|k IH]; simpl; [done|]. rewrite length_app, IH. lia. Qed.

Lemma list_times_lookup {A : Type} (l : list A) (k p : nat) :
  p < k * length l -> list_times l k !! p = l !! (p mod length l).
Proof.
  revert p. induction k as [|k IH]; intros p Hp; simpl in *; [lia|].
  destruct (decide (p < length l)) as [Hlt|Hge].
  - rewrite lookup_app_l by done. by rewrite Nat.mod_small.
  - rewrite lookup_app_r by lia. rewrite IH by lia. f_equal.
    replace p with ((p - length l) + 1 * length l) at 2 by lia.
    by rewrite Nat.Div0.mod_add.
Qed.

Lemma extend_ids_Ok (ids : list nat) (rem : nat) :
  ids <> [] ->
  exists ext, extend_ids ids (length ids) rem = Ok ext
              /\ length ext = length ids + rem
              /\ forall p, p < length ids + rem -> ext !! p = ids !! (p mod length ids).
Proof.
  intros Hne. assert (length ids <> 0) as HL by (destruct ids; [done | simpl; lia]).
  unfold extend_ids, py_floordiv, py_mod.
  destruct (decide (length ids = 0)); [done|]. cbn [bind].
  set (L := length ids) in *. set (q := rem / L). set (r := rem mod L).
  assert (rem = L * q + r) as Hrem by apply Nat.div_mod_eq.
  assert (r < L) as Hr by (apply Nat.mod_upper_bound; done).
  eexists. split; [reflexivity|]. split.
  - unfold slice_to. rewrite !length_app, list_times_length, length_take. fold L. lia.
  - intros p Hp. change (ids ++ list_times ids q ++ slice_to ids r)
      with (ids ++ (list_times ids q ++ take r ids)).
    rewrite app_assoc. change (ids ++ list_times ids q) with (list_times ids (S q)).
    destruct (decide (p < S q * L)) as [Hlt|Hge].
    + rewrite lookup_app_l by (rewrite list_times_length; done).
      by apply list_times_lookup.
    + rewrite lookup_app_r by (rewrite list_times_length; fold L; lia).
      rewrite list_times_length. fold L.
      rewrite lookup_take_lt by lia. f_equal.
      replace p with ((p - S q * L) + S q * L) at 2 by lia.
      rewrite Nat.Div0.mod_add. rewrite Nat.mod_small; lia.
Qed.

Lemma ceil_div_lt (n r k step : nat) :
  0 < step -> k < (n - r + (step - 1)) / step <-> r + k * step < n.
Proof.
  intros Hstep. set (X := n - r + (step - 1)).
  pose proof (Nat.Div0.mul_div_le X step) as H1.
  pose proof (Nat.mul_succ_div_gt X step ltac:(lia)) as H2.
  split; intros H; subst X; nia.
Qed.

Lemma py_range_elem (start stop step p : nat) :
  0 < step ->
  p ∈ py_range start stop step <-> exists k, p = start + k * step /\ p < stop.
Proof.
  intros Hstep. unfold py_range. rewrite list_elem_of_fmap. split.
  - intros (k & -> & Hk). apply elem_of_seq in Hk. exists k. split; [done|].
    apply ceil_div_lt; [done | lia].
  - intros (k & -> & Hlt). exists k. split; [done|].
    apply elem_of_seq. split; [lia|]. simpl. by apply ceil_div_lt.
Qed.

(** The positions of the slice [[r::R]] of a list of [n] items, for [r < R]:
    those below [n] that are congruent to [r]. *)
Lemma py_range_rank (r n R p : nat) :
  r < R -> p ∈ py_range r n R <-> p < n /\ p mod R = r.
Proof.
  intros Hr. rewrite py_range_elem by lia. split.
  - intros (k & -> & Hlt). split; [done|].
    rewrite Nat.Div0.mod_add. by apply Nat.mod_small.
  - intros [Hlt <-]. exists (p / R). split; [| done].
    rewrite (Nat.div_mod_eq p R) at 1. lia.
Qed.

Lemma py_range_NoDup (start stop step : nat) :
  0 < step -> NoDup (py_range start stop step).
Proof.
  intros Hstep. unfold py_range. apply NoDup_fmap_2; [| apply NoDup_seq].
  intros a b Hab. nia.
Qed.

Lemma py_range_length (start stop step : nat) :
  length (py_range start stop step) = (stop - start + (step - 1)) / step.
Proof. unfold py_range. by rewrite length_map, length_seq. Qed.

Lemma omap_lookup_Forall2 {A : Type} (l : list A) (ps : list nat) :
  Forall (fun p => p < length l) ps ->
  Forall2 (fun p v => l !! p = Some v) ps (omap (fun p => l !! p) ps).
Proof.
  induction 1 as [|p ps Hp _ IH]; simpl; [constructor|].
  destruct (lookup_lt_is_Some_2 l p Hp) as [v Hv]. rewrite Hv. by constructor.
Qed.

Lemma slice_step_Ok {A : Type} (l : list A) (start step : nat) :
  0 < step ->
  exists sl, slice_step l start step = Ok sl
             /\ Forall2 (fun p v => l !! p = Some v) (py_range start (length l) step) sl.
Proof.
  intros Hstep. unfold slice_step. destruct (decide (step = 0)); [lia|].
  eexists. split; [reflexivity|]. apply omap_lookup_Forall2.
  apply Forall_forall. intros p Hp. apply py_range_elem in Hp; [| done].
  by destruct Hp as (k & _ & Hlt).
Qed.

(** C6.  For a non-empty bucket, whatever index list [ids] of the bucket's
    size the epoch draws: the cyclic extension returns a list of exactly the
    padded count of items, whose item at position [p] is [ids[p % len]]; the
    slice [[r::R]] of every rank [r < R] is made of the items at the positions
    [range(r, padded, R)]; the position sets of two different ranks are
    disjoint, no position occurs twice in one, and together they are all the
    positions of the padded list. *)
Theorem rank_slices_partition (bucket ids : list nat) (num_replicas batch_size padded : nat) :
  bucket <> [] -> length ids = length bucket ->
  padded_count num_replicas batch_size (length bucket) = Ok padded ->
  exists ext,
    extend_ids ids (length bucket) (padded - length bucket) = Ok ext
    /\ length ext = padded
    /\ (forall p, p < padded -> ext !! p = ids !! (p mod length bucket))
    /\ (forall r, r < num_replicas ->
          exists sl, slice_step ext r num_replicas = Ok sl
                     /\ Forall2 (fun p v => ext !! p = Some v)
                          (py_range r padded num_replicas) sl
                     /\ NoDup (py_range r padded num_replicas))
    /\ (forall r1 r2 p, r1 < num_replicas -> r2 < num_replicas -> r1 <> r2 ->
          p ∈ py_range r1 padded num_replicas -> p ∉ py_range r2 padded num_replicas)
    /\ (forall p, p < padded <->
          exists r, r < num_replicas /\ p ∈ py_range r padded num_replicas).
Proof.
  intros Hne Hlen Hpad. apply padded_count_Ok in Hpad. cbv zeta in Hpad.
  destruct Hpad as [Hpos Hpad].
  assert (0 < num_replicas) as HR by (destruct num_replicas; [simpl in Hpos|]; lia).
  assert (ids <> []) as Hids by (destruct ids, bucket; simpl in *; done).
  destruct (extend_ids_Ok ids (padded - length bucket) Hids) as (ext & Hext & Hl & Hlook).
  rewrite Hlen in Hext, Hl, Hlook.
  assert (length ext = padded) as Hl' by lia.
  exists ext. split; [done|]. split; [done|]. split.
  { intros p Hp. apply Hlook. lia. }
  split.
  { intros r Hr. destruct (slice_step_Ok ext r num_replicas HR) as (sl & Hsl & Hall).
    rewrite Hl' in Hall. exists sl. split; [done|]. split; [done|].
    by apply py_range_NoDup. }
  split.
  { intros r1 r2 p Hr1 Hr2 Hneq H1 H2.
    apply py_range_rank in H1; [| done]. apply py_range_rank in H2; [| done]. lia. }
  intros p. split.
  - intros Hp. exists (p mod num_replicas). split.
    + apply Nat.mod_upper_bound. lia.
    + apply py_range_rank; [apply Nat.mod_upper_bound; lia | done].
  - intros (r & Hr & Hin). apply py_range_rank in Hin; [| done]. by destruct Hin.
Qed.

Lemma rank_slices_partition_witness :
  exists ext,
    extend_ids [2; 0; 1] (length [7; 8; 9]) (4 - length [7; 8; 9]) = Ok ext
    /\ length ext = 4
    /\ (forall p, p < 4 -> ext !! p = [2; 0; 1] !! (p mod length [7; 8; 9]))
    /\ (forall r, r < 2 ->
          exists sl, slice_step ext r 2 = Ok sl
                     /\ Forall2 (fun p v => ext !! p = Some v) (py_range r 4 2) sl
                     /\ NoDup (py_range r 4 2))
    /\ (forall r1 r2 p, r1 < 2 -> r2 < 2 -> r1 <> r2 ->
          p ∈ py_range r1 4 2 -> p ∉ py_range r2 4 2)
    /\ (forall p, p < 4 <-> exists r, r < 2 /\ p ∈ py_range r 4 2).
Proof.
  apply (rank_slices_partition [7; 8; 9] [2; 0; 1] 2 2 4);
    [discriminate | reflexivity | vm_compute; reflexivity].
Defined.

(** ** [__iter__]: what a call reads and writes *)

Section IterFacts.
Context (Gen : Type) (manual_seed : Z -> Gen) (randperm : nat -> Gen -> list nat * Gen).

Local Notation iter := (__iter__ Gen manual_seed randperm).
Local Notation indices_of := (bucket_indices Gen randperm).
Local Notation outcome := (iter_outcome Gen manual_seed randperm).

Lemma iter_fst (s : Sampler) : (iter s).1 = outcome s.
Proof.
  unfold __iter__, outcome.
  destruct (indices_of (shuffle s) (buckets s) (manual_seed (epoch s))) as [inds g].
  cbn [fst snd].
  destruct (foldM (bucket_step s inds) (seq 0 (length (buckets s))) []) as [bs|e];
    cbn [bind]; [| reflexivity].
  destruct (shuffle s).
  - destruct (randperm (length bs) g) as [batch_ids g']. cbn [fst].
    destruct (mapM (getitem bs) batch_ids) as [bs'|e]; cbn [bind]; [| reflexivity].
    cbn [set_batches batch_size num_samples].
    destruct (decide _); reflexivity.
  - cbn [bind set_batches batch_size num_samples]. destruct (decide _); reflexivity.
Qed.

(** A call changes no attribute but the cached batch list. *)
Lemma iter_snd (s : Sampler) :
  same_config (iter s).2 s /\ epoch (iter s).2 = epoch s.
Proof.
  unfold __iter__.
  destruct (indices_of (shuffle s) (buckets s) (manual_seed (epoch s))) as [inds g].
  destruct (let* batches := _ in _) as [bs|e]; [| by repeat split].
  destruct (decide _); by repeat split.
Qed.

Lemma bucket_step_config (s1 s2 : Sampler) (inds batches : list (list nat)) (i : nat) :
  same_config s1 s2 -> bucket_step s1 inds batches i = bucket_step s2 inds batches i.
Proof.
  intros (_ & HB & _ & HR & Hrk & _ & Hbk & Hn & _). unfold bucket_step.
  by rewrite HB, HR, Hrk, Hbk, Hn.
Qed.

Lemma foldM_ext {A S : Type} (f g : S -> A -> result S) (l : list A) (acc : S) :
  (forall acc a, f acc a = g acc a) -> foldM f l acc = foldM g l acc.
Proof.
  intros Hfg. revert acc. induction l as [|a l IH]; intros acc; simpl; [done|].
  rewrite Hfg. destruct (g acc a); simpl; [apply IH | done].
Qed.

Lemma iter_outcome_config (s1 s2 : Sampler) :
  same_config s1 s2 -> epoch s1 = epoch s2 -> outcome s1 = outcome s2.
Proof.
  intros Hc He. unfold outcome.
  rewrite (foldM_ext _ _ _ _ (fun acc a => bucket_step_config s1 s2 _ acc a Hc)).
  destruct Hc as (_ & HB & _ & _ & _ & Hsh & Hbk & _ & _ & Hns).
  by rewrite HB, Hsh, Hbk, Hns, He.
Qed.

(** Without shuffling no index list depends on the generator. *)
Lemma bucket_indices_identity (bks : list (list nat)) (g : Gen) :
  indices_of false bks g = (map (fun bucket => seq 0 (length bucket)) bks, g).
Proof.
  induction bks as [|bucket bks IH]; simpl; [done|]. by rewrite IH.
Qed.

(** C1.  Two calls to [__iter__] on samplers of one configuration and one
    epoch value return the same batch list, batch by batch and index by
    index (or raise the same exception); a call leaves the configuration and
    the epoch as they were, so that calling [__iter__] again on the sampler
    the first call leaves behind returns the same batch list again.  The
    generator is seeded anew from the epoch by each call and its draws are
    a function of its state. *)
Theorem iter_deterministic (s1 s2 : Sampler) :
  same_config s1 s2 -> epoch s1 = epoch s2 ->
  (iter s1).1 = (iter s2).1
  /\ (iter (iter s1).2).1 = (iter s1).1.
Proof.
  intros Hc He. rewrite !iter_fst. split.
  - by apply iter_outcome_config.
  - destruct (iter_snd s1) as [Hc' He']. by apply iter_outcome_config.
Qed.

(** C10.  With [shuffle = False] the batch list that [__iter__] returns is
    the same for every two epoch values: the buckets are walked in identity
    order, the batch order is left as built, and the generator seeded from
    the epoch is never drawn from. *)
Theorem iter_unshuffled_epoch_free (s : Sampler) (e1 e2 : Z) :
  shuffle s = false ->
  (iter (set_epoch s e1)).1 = (iter (set_epoch s e2)).1.
Proof.
  intros Hsh. rewrite !iter_fst. unfold outcome.
  cbn [set_epoch shuffle buckets batch_size num_samples epoch].
  rewrite Hsh, !bucket_indices_identity. cbn [fst].
  by rewrite (foldM_ext _ _ _ _
                (fun acc a => bucket_step_config (set_epoch s e1) (set_epoch s e2) _ acc a
                                ltac:(by repeat split))).
Qed.
End IterFacts.

Example demo_sampler_init (shuffle : bool) :
  __init__ [15; 12; 18; 5; 25; 31; 0; 7; 8]%Z 2 [0; 10; 20; 30]%Z 2 1 shuffle
  = Ok (demo_sampler shuffle).
Proof. destruct shuffle; vm_compute; reflexivity. Qed.

Lemma iter_deterministic_witness :
  (__iter__ nat flip_seed flip_randperm (set_epoch (demo_sampler true) 3)).1
  = (__iter__ nat flip_seed flip_randperm
       (set_batches (set_epoch (demo_sampler true) 3) [[1; 2]])).1
  /\ (__iter__ nat flip_seed flip_randperm
        (__iter__ nat flip_seed flip_randperm (set_epoch (demo_sampler true) 3)).2).1
     = (__iter__ nat flip_seed flip_randperm (set_epoch (demo_sampler true) 3)).1.
Proof.
  apply (iter_deterministic nat flip_seed flip_randperm
           (set_epoch (demo_sampler true) 3)
           (set_batches (set_epoch (demo_sampler true) 3) [[1; 2]]));
    [repeat split | reflexivity].
Defined.

Lemma iter_unshuffled_epoch_free_witness :
  (__iter__ nat flip_seed flip_randperm (set_epoch (demo_sampler false) 3)).1
  = (__iter__ nat flip_seed flip_randperm (set_epoch (demo_sampler false) 8)).1.
Proof.
  apply (iter_unshuffled_epoch_free nat flip_seed flip_randperm (demo_sampler false) 3 8).
  reflexivity.
Defined.

(** ** [__iter__]: the number and the size of the batches *)

Lemma padded_count_multiple (num_replicas batch_size len_bucket p : nat) :
  padded_count num_replicas batch_size len_bucket = Ok p ->
  len_bucket <= p /\ exists k, p = k * (num_replicas * batch_size).
Proof.
  intros H. apply padded_count_Ok in H. cbv zeta in H. destruct H as [Hpos ->].
  set (T := num_replicas * batch_size) in *. split; [lia|].
  pose proof (Nat.div_mod_eq len_bucket T) as Hdm.
  pose proof (Nat.mod_upper_bound len_bucket T ltac:(lia)) as Hm.
  destruct (decide (len_bucket mod T = 0)) as [Hz|Hnz].
  - exists (len_bucket / T). rewrite Hz, Nat.sub_0_r, Nat.Div0.mod_same. lia.
  - exists (S (len_bucket / T)). rewrite (Nat.mod_small (T - len_bucket mod T)) by lia. lia.
Qed.

Lemma mapM_Forall_Ok {A B : Type} (f : A -> result B) (Q : B -> Prop) (l : list A) :
  Forall (fun a => exists b, f a = Ok b /\ Q b) l ->
  exists l', mapM f l = Ok l' /\ length l' = length l /\ Forall Q l'.
Proof.
  induction 1 as [|a l (b & Hb & HQ) _ (l' & Hl' & Hlen & HQs)]; simpl.
  - exists []. by repeat split.
  - rewrite Hb, Hl'. simpl. exists (b :: l'). repeat split; [simpl; lia | by constructor].
Qed.

(** A loop whose every round succeeds and appends. *)
Lemma foldM_collect {A X : Type} (f : list X -> A -> result (list X))
    (Q : A -> list X -> Prop) (l : list A) (acc : list X) :
  (forall acc a, a ∈ l -> exists new, f acc a = Ok (acc ++ new) /\ Q a new) ->
  exists news, foldM f l acc = Ok (acc ++ concat news) /\ Forall2 Q l news.
Proof.
  revert acc. induction l as [|a l IH]; intros acc Hf; simpl.
  - exists []. simpl. rewrite app_nil_r. split; [done | constructor].
  - destruct (Hf acc a ltac:(left)) as (new & -> & HQ). simpl.
    destruct (IH (acc ++ new)) as (news & -> & HQs).
    { intros acc' a' Ha'. apply Hf. by right. }
    exists (new :: news). simpl. rewrite app_assoc. split; [done | by constructor].
Qed.

Lemma concat_singletons {A X : Type} (P : X -> Prop) (l : list A) (news : list (list X)) :
  Forall2 (fun _ new => length new = 1 /\ Forall P new) l news ->
  length (concat news) = length l /\ Forall P (concat news).
Proof.
  induction 1 as [|a new l news [Hlen HP] _ [IHlen IHP]]; simpl; [by split|].
  rewrite length_app, Hlen, IHlen. split; [done | by apply Forall_app].
Qed.

Lemma make_batches_Ok (bucket ids : list nat) (B k : nat) (acc : list (list nat)) :
  0 < B -> length ids = k * B -> Forall (fun idx => idx < length bucket) ids ->
  exists new, make_batches bucket ids B acc = Ok (acc ++ new)
              /\ length new = k /\ Forall (fun batch => length batch = B) new.
Proof.
  intros HB Hlen Hids. unfold make_batches, py_floordiv.
  destruct (decide (B = 0)); [lia|]. cbn [bind].
  rewrite Hlen, Nat.div_mul by done.
  destruct (foldM_collect
              (fun batches j =>
                 let* batch := mapM (getitem bucket) (slice ids (j * B) ((j + 1) * B)) in
                 Ok (batches ++ [batch]))
              (fun _ new => length new = 1 /\ Forall (fun batch => length batch = B) new)
              (seq 0 k) acc) as (news & Hfold & Hnews).
  - intros acc' j Hj. apply elem_of_seq in Hj.
    destruct (mapM_Forall_Ok (getitem bucket) (fun _ => True)
                (slice ids (j * B) ((j + 1) * B))) as (batch & Hb & Hbl & _).
    { unfold slice. apply Forall_take, Forall_drop.
      eapply Forall_impl; [exact Hids|]. intros idx Hidx.
      destruct (getitem_lt bucket idx Hidx) as (v & Hv & _). eauto. }
    rewrite Hb. cbn [bind]. exists [batch]. split; [done|]. split; [done|].
    constructor; [| constructor]. rewrite Hbl. unfold slice.
    rewrite length_take, length_drop, Hlen. nia.
  - rewrite Hfold. apply concat_singletons in Hnews. destruct Hnews as [Hl HP].
    exists (concat news). rewrite Hl, length_seq. done.
Qed.

Lemma Forall2_lookup_Forall {A : Type} (P : A -> Prop) (l : list A) (ps : list nat)
    (sl : list A) :
  Forall P l -> Forall2 (fun p v => l !! p = Some v) ps sl -> Forall P sl.
Proof.
  intros HP. induction 1 as [|p v ps sl Hv _ IH]; [constructor|].
  constructor; [| done]. by eapply (Forall_lookup_1 P l p v).
Qed.

Lemma rank_slice_count (k B R r : nat) :
  r < R -> (k * (R * B) - r + (R - 1)) / R = k * B.
Proof.
  intros Hr. destruct (decide (k * B = 0)) as [Hz|Hnz].
  - replace (k * (R * B)) with 0 by nia. rewrite Hz.
    apply Nat.div_small. lia.
  - replace (k * (R * B) - r + (R - 1)) with ((k * B - 1) * R + (2 * R - 1 - r)) by nia.
    rewrite Nat.div_add_l by lia.
    replace (2 * R - 1 - r) with (1 * R + (R - 1 - r)) by lia.
    rewrite Nat.div_add_l by lia. rewrite (Nat.div_small (R - 1 - r)) by lia. lia.
Qed.

(** One round of the bucket loop on a non-empty bucket. *)
Lemma bucket_step_Ok (s : Sampler) (inds acc : list (list nat)) (i : nat)
    (bucket ids : list nat) (p : nat) :
  0 < batch_size s -> rank s < num_replicas s ->
  buckets s !! i = Some bucket -> bucket <> [] ->
  inds !! i = Some ids -> ids ≡ₚ seq 0 (length bucket) ->
  num_samples_per_bucket s !! i = Some p ->
  padded_count (num_replicas s) (batch_size s) (length bucket) = Ok p ->
  exists new, bucket_step s inds acc i = Ok (acc ++ new)
              /\ length new * batch_size s = p / num_replicas s
              /\ Forall (fun batch => length batch = batch_size s) new.
Proof.
  intros HB Hrk Hbucket Hne Hids Hperm Hp Hpad. unfold bucket_step.
  apply getitem_Ok in Hbucket, Hids, Hp. rewrite Hbucket, Hids, Hp. cbn [bind].
  destruct (padded_count_multiple _ _ _ _ Hpad) as (Hle & k & Hk).
  assert (length ids = length bucket) as Hlen
    by (rewrite (Permutation_length Hperm); apply length_seq).
  assert (Forall (fun idx => idx < length bucket) ids) as Hbound.
  { apply Forall_forall. intros idx Hidx. rewrite Hperm in Hidx.
    apply elem_of_seq in Hidx. lia. }
  assert (ids <> []) as Hidsne by (destruct ids, bucket; simpl in *; done).
  destruct (extend_ids_Ok ids (p - length bucket) Hidsne) as (ext & Hext & Hl & Hlook).
  rewrite Hlen in Hext, Hl, Hlook. rewrite Hext. cbn [bind].
  assert (length ext = p) as Hl' by lia.
  assert (Forall (fun idx => idx < length bucket) ext) as Hextb.
  { apply Forall_lookup. intros q idx Hq.
    rewrite Hlook in Hq by (apply lookup_lt_Some in Hq; lia).
    exact (Forall_lookup_1 _ ids _ idx Hbound Hq). }
  destruct (slice_step_Ok ext (rank s) (num_replicas s) ltac:(lia)) as (sl & Hsl & Hall).
  rewrite Hsl. cbn [bind].
  assert (length sl = k * batch_size s) as Hsllen.
  { rewrite <- (Forall2_length _ _ _ Hall), py_range_length, Hl', Hk.
    by apply rank_slice_count. }
  destruct (make_batches_Ok bucket sl (batch_size s) k acc HB Hsllen) as (new & Hnew & Hn & HF).
  { eapply Forall2_lookup_Forall; eassumption. }
  exists new. split; [done|]. split; [| done].
  rewrite Hn, Hk. replace (k * (num_replicas s * batch_size s))
    with (k * batch_size s * num_replicas s) by lia.
  rewrite Nat.div_mul by lia. done.
Qed.

Lemma sum_batches (news : list (list (list nat))) (counts : list nat) (R B : nat) :
  R <> 0 ->
  Forall2 (fun new p => length new * B = p / R /\ exists k, p = k * R) news counts ->
  length (concat news) * B = py_sum counts / R /\ exists k, py_sum counts = k * R.
Proof.
  intros HR. induction 1 as [|new p news counts [Hn [k Hk]] _ [IH [k' Hk']]]; simpl.
  - split; [by rewrite Nat.Div0.div_0_l | by exists 0].
  - rewrite length_app. split; [| exists (k + k'); lia].
    rewrite Nat.mul_add_distr_r, Hn, IH, Hk, Nat.div_add_l, Nat.div_mul by done. done.
Qed.

Lemma init_inv (dataset_lengths : list Z) (B : nat) (bnds : list Z) (R rk : nat)
    (sh : bool) (s : Sampler) :
  __init__ dataset_lengths B bnds R rk sh = Ok s ->
  sampler_inv s /\ batch_size s = B /\ num_replicas s = R /\ rank s = rk
  /\ shuffle s = sh /\ epoch s = 0%Z.
Proof.
  unfold __init__. intros H. inv_bind H. destruct a as [[bks counts] bnds'].
  apply create_buckets_counts in Ha. inv_bind H. injection H as <-.
  unfold py_floordiv in Ha0. destruct (decide (R = 0)) as [|HR]; [discriminate|].
  injection Ha0 as <-. unfold sampler_inv. cbn. by repeat split.
Qed.

Section IterCount.
Context (Gen : Type) (manual_seed : Z -> Gen) (randperm : nat -> Gen -> list nat * Gen).

(** What the tensor library promises of a drawn permutation of [n] items. *)
Hypothesis randperm_perm : forall n g, (randperm n g).1 ≡ₚ seq 0 n.

Local Notation iter := (__iter__ Gen manual_seed randperm).
Local Notation indices_of := (bucket_indices Gen randperm).
Local Notation outcome := (iter_outcome Gen manual_seed randperm).

Lemma bucket_indices_perm (sh : bool) (bks : list (list nat)) (g : Gen) :
  Forall2 (fun bucket ids => ids ≡ₚ seq 0 (length bucket)) bks (indices_of sh bks g).1.
Proof.
  revert g. induction bks as [|bucket bks IH]; intros g; simpl; [constructor|].
  destruct sh.
  - pose proof (randperm_perm (length bucket) g) as Hp.
    destruct (randperm (length bucket) g) as [p g']. specialize (IH g').
    destruct (indices_of true bks g') as [ps g'']. simpl in *. by constructor.
  - specialize (IH g). destruct (indices_of false bks g) as [ps g']. simpl in *.
    by constructor.
Qed.

Lemma iter_outcome_Ok (s : Sampler) :
  sampler_inv s -> 0 < batch_size s -> rank s < num_replicas s ->
  Forall (fun bucket => bucket <> []) (buckets s) ->
  exists all_batches,
    outcome s = Ok all_batches
    /\ length all_batches * batch_size s
       = py_sum (num_samples_per_bucket s) / num_replicas s
    /\ Forall (fun batch => length batch = batch_size s) all_batches
    /\ exists k, py_sum (num_samples_per_bucket s) = k * num_replicas s.
Proof.
  intros (Hpad & Htot & HR & Hns) HB Hrk Hne. unfold iter_outcome.
  pose proof (bucket_indices_perm (shuffle s) (buckets s) (manual_seed (epoch s))) as Hinds.
  destruct (indices_of (shuffle s) (buckets s) (manual_seed (epoch s))) as [inds g].
  cbn [fst snd] in *.
  destruct (foldM_collect (bucket_step s inds)
              (fun i new => exists p, num_samples_per_bucket s !! i = Some p
                  /\ length new * batch_size s = p / num_replicas s
                  /\ Forall (fun batch => length batch = batch_size s) new)
              (seq 0 (length (buckets s))) []) as (news & Hfold & Hnews).
  { intros acc i Hi. apply elem_of_seq in Hi.
    destruct (lookup_lt_is_Some_2 (buckets s) i ltac:(lia)) as [bucket Hbucket].
    destruct (Forall2_lookup_l _ _ _ _ _ Hpad Hbucket) as (p & Hp & Hpc).
    destruct (Forall2_lookup_l _ _ _ _ _ Hinds Hbucket) as (ids & Hids & Hperm).
    destruct (bucket_step_Ok s inds acc i bucket ids p HB Hrk Hbucket
                (Forall_lookup_1 _ _ _ _ Hne Hbucket) Hids Hperm Hp Hpc)
      as (new & Hnew & Hcount & HF).
    exists new. split; [done|]. by exists p. }
  rewrite Hfold. cbn [bind app].
  assert (Forall2 (fun new p => length new * batch_size s = p / num_replicas s
                                /\ exists k, p = k * num_replicas s)
            news (num_samples_per_bucket s)) as Hcounts.
  { apply Forall2_same_length_lookup_2.
    - rewrite <- (Forall2_length _ _ _ Hnews), length_seq. by eapply Forall2_length.
    - intros i new p Hnew Hp.
      destruct (Forall2_lookup_r _ _ _ _ _ Hnews Hnew) as (j & Hj & p' & Hp' & Hc & _).
      apply lookup_seq in Hj. destruct Hj as [-> _]. simpl in Hp'.
      rewrite Hp in Hp'. injection Hp' as <-. split; [done|].
      destruct (Forall2_lookup_r _ _ _ _ _ Hpad Hp) as (bucket & _ & Hpc).
      destruct (padded_count_multiple _ _ _ _ Hpc) as (_ & k & ->).
      exists (k * batch_size s). lia. }
  destruct (sum_batches news _ _ _ HR Hcounts) as [Hsum Hdiv].
  assert (Forall (fun batch => length batch = batch_size s) (concat news)) as Hsizes.
  { apply Forall_concat. eapply Forall2_Forall_r; [exact Hnews|].
    apply Forall_forall. intros i _ new (p & _ & _ & HF). exact HF. }
  assert (num_samples s = py_sum (num_samples_per_bucket s) / num_replicas s) as Hns'
    by (by rewrite Hns, Htot).
  destruct (shuffle s).
  - pose proof (randperm_perm (length (concat news)) g) as Hperm.
    destruct (randperm (length (concat news)) g) as [batch_ids g']. cbn [fst] in *.
    destruct (mapM_Forall_Ok (getitem (concat news))
                (fun batch => length batch = batch_size s) batch_ids)
      as (shuffled & Hsh & Hshl & HshF).
    { apply Forall_forall. intros j Hj. rewrite Hperm in Hj. apply elem_of_seq in Hj.
      destruct (getitem_lt (concat news) j ltac:(lia)) as (b & Hb & Hb').
      exists b. split; [done|]. exact (Forall_lookup_1 _ _ _ _ Hsizes Hb'). }
    rewrite Hsh. cbn [bind].
    rewrite (Permutation_length Hperm), length_seq in Hshl.
    rewrite decide_True by (rewrite Hshl, Hsum; done).
    exists shuffled. rewrite Hshl. done.
  - cbn [bind]. rewrite decide_True by (rewrite Hsum; done).
    exists (concat news). done.
Qed.

Lemma py_sum_lengths (l : list (list nat)) (B : nat) :
  Forall (fun batch => length batch = B) l -> py_sum (map length l) = length l * B.
Proof. induction 1 as [|b l Hb _ IH]; simpl; [done|]. rewrite Hb, IH. lia. Qed.

(** C2.  For a sampler built by [__init__] with [batch_size > 0] and a rank
    below [num_replicas], whose surviving buckets are all non-empty, and for
    every epoch: [__iter__] returns (the closing assertion holds and nothing
    raises) a batch list with
    [len(all_batches) * batch_size == sum(padded_counts) // num_replicas],
    every batch has exactly [batch_size] items, and
    [sum(len(batch)) * num_replicas == sum(padded_counts)]. *)
Theorem iter_batch_count (dataset_lengths : list Z) (B : nat) (bnds : list Z) (R rk : nat)
    (sh : bool) (e : Z) (s : Sampler) :
  __init__ dataset_lengths B bnds R rk sh = Ok s ->
  0 < B -> rk < R ->
  Forall (fun bucket => bucket <> []) (buckets s) ->
  exists all_batches,
    (iter (set_epoch s e)).1 = Ok all_batches
    /\ length all_batches * B = py_sum (num_samples_per_bucket s) / R
    /\ Forall (fun batch => length batch = B) all_batches
    /\ py_sum (map length all_batches) * R = py_sum (num_samples_per_bucket s).
Proof.
  intros Hinit HB Hrk Hne.
  destruct (init_inv _ _ _ _ _ _ _ Hinit) as (Hinv & <- & <- & <- & _ & _).
  destruct (iter_outcome_Ok (set_epoch s e)) as (all & Hall & Hcount & Hsizes & k & Hk);
    [exact Hinv | done | done | done |].
  cbn [set_epoch batch_size num_replicas num_samples_per_bucket] in *.
  exists all. rewrite iter_fst. split; [done|]. split; [done|]. split; [done|].
  rewrite (py_sum_lengths _ _ Hsizes), Hcount, Hk.
  rewrite Nat.div_mul by lia. done.
Qed.
End IterCount.

Lemma flip_randperm_perm (n g : nat) : (flip_randperm n g).1 ≡ₚ seq 0 n.
Proof.
  unfold flip_randperm. simpl. destruct (Nat.even g); [done|].
  symmetry. apply Permutation_rev.
Qed.

Lemma iter_batch_count_witness :
  exists all_batches,
    (__iter__ nat flip_seed flip_randperm (set_epoch (demo_sampler true) 3)).1 = Ok all_batches
    /\ length all_batches * 2 = py_sum (num_samples_per_bucket (demo_sampler true)) / 2
    /\ Forall (fun batch => length batch = 2) all_batches
    /\ py_sum (map length all_batches) * 2
       = py_sum (num_samples_per_bucket (demo_sampler true)).
Proof.
  apply (iter_batch_count nat flip_seed flip_randperm flip_randperm_perm
           [15; 12; 18; 5; 25; 31; 0; 7; 8]%Z 2 [0; 10; 20; 30]%Z 2 1 true 3
           (demo_sampler true));
    [vm_compute; reflexivity | lia | lia | repeat constructor; discriminate].
Defined.

(** ** [get_audio_text_pair] *)

Section Fetch.
Context {F : Type}.

Lemma cols_to_wf (t : Tensor2 F) (n : nat) : tensor2_wf t -> tensor2_wf (cols_to t n).
Proof.
  intros [Hrows Hcols]. unfold tensor2_wf, cols_to, slice_to. simpl. split.
  - by rewrite length_map.
  - apply Forall_fmap. eapply Forall_impl; [exact Hcols|].
    intros r Hr. simpl in *. by rewrite length_take, Hr.
Qed.

(** C8.  When the text and the spectrogram of a fetched sample differ in
    length (the text and the tone having the same length), the fetch returns
    text, tone, f0 and spec cut to the minimum of the two lengths and the
    waveform cut to that minimum times [samples_per_frame] samples: text, tone
    and spec then have exactly the minimum length, f0 and wav have it
    (respectively its multiple) as soon as they were that long.  A sample
    with text length 10 and spec length 12 comes back with text and spec of
    length 10 and a waveform cut to [10 * samples_per_frame] samples. *)
Theorem fetch_reconciles (text_in tone_in : list Z) (f0_in : list F) (spec_in wav_in : Tensor2 F) :
  length text_in = length tone_in -> length text_in <> size1 spec_in ->
  tensor2_wf spec_in -> tensor2_wf wav_in ->
  let len_min := min (length text_in) (size1 spec_in) in
  exists x,
    get_audio_text_pair text_in tone_in f0_in spec_in wav_in = Ok x
    /\ (text x = take len_min text_in /\ length (text x) = len_min)
    /\ (tone x = take len_min tone_in /\ length (tone x) = len_min)
    /\ (f0 x = take len_min f0_in /\ length (f0 x) = min len_min (length f0_in))
    /\ (rows (spec x) = map (take len_min) (rows spec_in)
        /\ size1 (spec x) = len_min /\ tensor2_wf (spec x))
    /\ (rows (wav x) = map (take (len_min * samples_per_frame)) (rows wav_in)
        /\ size1 (wav x) = min (len_min * samples_per_frame) (size1 wav_in)
        /\ tensor2_wf (wav x))
    /\ (length text_in = 10 -> size1 spec_in = 12 ->
        length (text x) = 10 /\ size1 (spec x) = 10
        /\ wav x = cols_to wav_in (10 * samples_per_frame)
        /\ (10 * samples_per_frame <= size1 wav_in ->
            size1 (wav x) = 10 * samples_per_frame)).
Proof.
  intros Htone Hdiff Hspec Hwav len_min. unfold get_audio_text_pair.
  rewrite decide_True by done. rewrite decide_True by done. cbv zeta.
  fold len_min. eexists. split; [reflexivity|]. cbn [text tone f0 spec wav].
  unfold slice_to. subst len_min.
  pose proof (proj1 (cols_to_wf spec_in (length text_in `min` size1 spec_in) Hspec)).
  pose proof (proj2 (cols_to_wf spec_in (length text_in `min` size1 spec_in) Hspec)).
  pose proof (proj1 (cols_to_wf wav_in
                       (length text_in `min` size1 spec_in * samples_per_frame) Hwav)).
  pose proof (proj2 (cols_to_wf wav_in
                       (length text_in `min` size1 spec_in * samples_per_frame) Hwav)).
  repeat split; try done; rewrite ?length_take; cbn [cols_to size1]; try lia.
  match goal with
  | Ha : length text_in = 10, Hb : size1 spec_in = 12 |- _ => by rewrite Ha, Hb
  end.
Qed.
End Fetch.

Lemma fetch_reconciles_witness :
  exists x : Sample nat,
    get_audio_text_pair [1; 2; 3]%Z [4; 5; 6]%Z [7; 8; 9]
      {| size0 := 1; size1 := 2; rows := [[1; 2]] |}
      {| size0 := 1; size1 := 600; rows := [replicate 600 5] |} = Ok x
    /\ length (text x) = 2 /\ size1 (spec x) = 2 /\ size1 (wav x) = 512.
Proof.
  destruct (fetch_reconciles [1; 2; 3]%Z [4; 5; 6]%Z [7; 8; 9]
              {| size0 := 1; size1 := 2; rows := [[1; 2]] |}
              {| size0 := 1; size1 := 600; rows := [replicate 600 5] |})
    as (x & Hx & (_ & Ht) & _ & _ & (_ & Hs & _) & (_ & Hw & _) & _).
  - reflexivity.
  - simpl. lia.
  - split; [reflexivity | repeat constructor].
  - split; [reflexivity | repeat constructor].
  - exists x. split; [exact Hx|]. split; [exact Ht|]. split; [exact Hs | exact Hw].
Defined.

(** ** The collator: filling the buffers row by row *)

Lemma foldl_max_list (n : nat) (l : list nat) : foldl Nat.max n l = n `max` max_list l.
Proof.
  revert n. induction l as [|a l IH]; intros n; simpl; [lia|]. rewrite IH. lia.
Qed.

Lemma insert_take_drop {X : Type} (fin init : list X) (m : nat) (v : X) :
  length fin = length init -> fin !! m = Some v ->
  <[m := v]> (take m fin ++ drop m init) = take (S m) fin ++ drop (S m) init.
Proof.
  intros Hlen Hv. pose proof (lookup_lt_Some _ _ _ Hv) as Hm.
  destruct (lookup_lt_is_Some_2 init m ltac:(lia)) as [w Hw].
  rewrite insert_app_r_alt by (rewrite length_take; lia).
  rewrite length_take, Nat.min_l, Nat.sub_diag by lia.
  rewrite (drop_S init w m Hw). simpl.
  rewrite (take_S_r fin m v Hv). by rewrite <- app_assoc.
Qed.

Lemma lookup_take_drop {X : Type} (fin init : list X) (m : nat) :
  length fin = length init -> m < length init ->
  (take m fin ++ drop m init) !! m = init !! m.
Proof.
  intros Hlen Hm. rewrite lookup_app_r by (rewrite length_take; lia).
  rewrite length_take, Nat.min_l, Nat.sub_diag by lia.
  rewrite lookup_drop. f_equal. lia.
Qed.

Lemma length_take_drop {X : Type} (fin init : list X) (m : nat) :
  length fin = length init -> length (take m fin ++ drop m init) = length init.
Proof. intros Hlen. rewrite length_app, length_take, length_drop. lia. Qed.

Section CollateRows.
Context {F : Type} (fzero : F).

Lemma py_max_Ok (l : list nat) : l <> [] -> py_max l = Ok (max_list l).
Proof.
  destruct l as [|n l]; [done|]. intros _. simpl. by rewrite foldl_max_list.
Qed.

Lemma assign_prefix_at {A : Type} (fin init : list (list A)) (m : nat) (src row : list A) :
  length fin = length init -> init !! m = Some row -> length src <= length row ->
  fin !! m = Some (src ++ drop (length src) row) ->
  assign_prefix (take m fin ++ drop m init) m src
  = Ok (take (S m) fin ++ drop (S m) init).
Proof.
  intros Hlen Hrow Hle Hfin. pose proof (lookup_lt_Some _ _ _ Hrow) as Hm.
  unfold assign_prefix, getitem.
  rewrite lookup_take_drop, Hrow by done. cbn [bind].
  rewrite decide_True by done. by rewrite insert_take_drop.
Qed.

Lemma set_length_at (fin init : list (option nat)) (m n : nat) :
  length fin = length init -> m < length init -> fin !! m = Some (Some n) ->
  set_length (take m fin ++ drop m init) m n = Ok (take (S m) fin ++ drop (S m) init).
Proof.
  intros Hlen Hm Hfin. unfold set_length.
  rewrite length_take_drop by done. rewrite decide_True by done.
  by rewrite insert_take_drop.
Qed.

Lemma assign_prefix2_at (fin init : list (Tensor2 F)) (m : nat) (src plane : Tensor2 F) :
  length fin = length init -> init !! m = Some plane ->
  size1 src <= size1 plane -> size0 src = size0 plane ->
  fin !! m = Some {| size0 := size0 plane; size1 := size1 plane;
                     rows := zip_with (fun s r => s ++ drop (length s) r)
                               (rows src) (rows plane) |} ->
  assign_prefix2 (take m fin ++ drop m init) m src
  = Ok (take (S m) fin ++ drop (S m) init).
Proof.
  intros Hlen Hplane Hle Hd Hfin. pose proof (lookup_lt_Some _ _ _ Hplane) as Hm.
  unfold assign_prefix2, getitem.
  rewrite lookup_take_drop, Hplane by done. cbn [bind].
  rewrite decide_True by done. rewrite decide_True by done.
  by rewrite insert_take_drop.
Qed.

Lemma pad_to_drop {A : Type} (zero : A) (n : nat) (src : list A) :
  src ++ drop (length src) (replicate n zero) = pad_to zero n src.
Proof. unfold pad_to. by rewrite drop_replicate. Qed.

Lemma zip_with_replicate {A B C : Type} (f : A -> B -> C) (l : list A) (b : B) :
  zip_with f l (replicate (length l) b) = map (fun a => f a b) l.
Proof. induction l as [|a l IH]; simpl; [done|]. by rewrite IH. Qed.

Lemma pad_tensor_zeros (t : Tensor2 F) (n : nat) :
  length (rows t) = size0 t ->
  {| size0 := size0 (zeros2 fzero (size0 t) n);
     size1 := size1 (zeros2 fzero (size0 t) n);
     rows := zip_with (fun s r => s ++ drop (length s) r) (rows t)
               (rows (zeros2 fzero (size0 t) n)) |}
  = pad_tensor fzero (size0 t) n t.
Proof.
  intros Hrows. unfold pad_tensor, zeros2. cbn [size0 size1 rows]. f_equal.
  rewrite <- Hrows, zip_with_replicate. apply map_ext. intros r. apply pad_to_drop.
Qed.

Lemma field_max_le (len : Sample F -> nat) (batch : list (Sample F)) (x : Sample F) :
  x ∈ batch -> len x <= field_max len batch.
Proof.
  intros Hx. unfold field_max. apply max_list_elem_of_le.
  apply list_elem_of_fmap. by exists x.
Qed.
End CollateRows.

Section CollateLoop.
Context {F : Type} (fzero : F).
Variables (feature_dim : nat) (batch sorted : list (Sample F)) (ids : list nat).

Hypothesis batch_ok : Forall (sample_ok feature_dim) batch.
Hypothesis sorted_ids : Forall2 (fun id x => batch !! id = Some x) ids sorted.
Hypothesis ids_length : length ids = length batch.

Local Notation fin := (collated fzero feature_dim batch sorted).
Local Notation init := (zero_buffers fzero feature_dim batch).

Lemma sorted_length : length sorted = length batch.
Proof. by rewrite <- (Forall2_length _ _ _ sorted_ids). Qed.

(** Round [m] of the loop writes row [m] of every buffer. *)
Lemma collate_row_step (m : nat) :
  m < length batch ->
  collate_row batch ids (buffers_at m fin init) m = Ok (buffers_at (S m) fin init).
Proof.
  intros Hm. pose proof sorted_length as Hsl.
  destruct (lookup_lt_is_Some_2 ids m ltac:(lia)) as [id Hid].
  destruct (Forall2_lookup_l _ _ _ _ _ sorted_ids Hid) as (x & Hx & Hbx).
  assert (x ∈ batch) as Hin by (by eapply list_elem_of_lookup_2).
  destruct (proj1 (Forall_forall _ _) batch_ok x Hin) as (Hspec & Hwav & Hd & Hc).
  unfold collate_row, getitem. rewrite Hid. cbn [bind]. rewrite Hbx. cbn [bind].
  unfold buffers_at.
  cbn [text_padded text_lengths tone_padded tone_lengths f0_padded f0_lengths
       spec_padded spec_lengths wav_padded wav_lengths collated zero_buffers].
  rewrite (assign_prefix_at _ _ m (text x)
             (replicate (field_max (fun x => length (text x)) batch) 0%Z)).
  2: by rewrite length_map, length_replicate.
  2: by apply lookup_replicate_2.
  2: rewrite length_replicate; by apply (field_max_le (fun x => length (text x))).
  2: by rewrite list_lookup_fmap, Hx, pad_to_drop.
  cbn [bind]. rewrite (set_length_at _ _ m (length (text x))).
  2: by rewrite length_map, length_replicate.
  2: by rewrite length_replicate.
  2: by rewrite list_lookup_fmap, Hx.
  cbn [bind].
  rewrite (assign_prefix_at _ _ m (tone x)
             (replicate (field_max (fun x => length (tone x)) batch) 0%Z)).
  2: by rewrite length_map, length_replicate.
  2: by apply lookup_replicate_2.
  2: rewrite length_replicate; by apply (field_max_le (fun x => length (tone x))).
  2: by rewrite list_lookup_fmap, Hx, pad_to_drop.
  cbn [bind]. rewrite (set_length_at _ _ m (length (tone x))).
  2: by rewrite length_map, length_replicate.
  2: by rewrite length_replicate.
  2: by rewrite list_lookup_fmap, Hx.
  cbn [bind].
  rewrite (assign_prefix_at _ _ m (f0 x)
             (replicate (field_max (fun x => length (f0 x)) batch) fzero)).
  2: by rewrite length_map, length_replicate.
  2: by apply lookup_replicate_2.
  2: rewrite length_replicate; by apply (field_max_le (fun x => length (f0 x))).
  2: by rewrite list_lookup_fmap, Hx, pad_to_drop.
  cbn [bind]. rewrite (set_length_at _ _ m (length (f0 x))).
  2: by rewrite length_map, length_replicate.
  2: by rewrite length_replicate.
  2: by rewrite list_lookup_fmap, Hx.
  cbn [bind].
  rewrite (assign_prefix2_at _ _ m (spec x)
             (zeros2 fzero feature_dim (field_max (fun x => size1 (spec x)) batch))).
  2: by rewrite length_map, length_replicate.
  2: by apply lookup_replicate_2.
  2: by apply (field_max_le (fun x => size1 (spec x))).
  2: done.
  2: { rewrite list_lookup_fmap, Hx. cbn [fmap option_fmap option_map]. f_equal.
       rewrite <- Hd. symmetry. apply pad_tensor_zeros. apply Hspec. }
  cbn [bind]. rewrite (set_length_at _ _ m (size1 (spec x))).
  2: by rewrite length_map, length_replicate.
  2: by rewrite length_replicate.
  2: by rewrite list_lookup_fmap, Hx.
  cbn [bind].
  rewrite (assign_prefix2_at _ _ m (wav x)
             (zeros2 fzero 1 (field_max (fun x => size1 (wav x)) batch))).
  2: by rewrite length_map, length_replicate.
  2: by apply lookup_replicate_2.
  2: by apply (field_max_le (fun x => size1 (wav x))).
  2: done.
  2: { rewrite list_lookup_fmap, Hx. cbn [fmap option_fmap option_map]. f_equal.
       rewrite <- Hc. symmetry. apply pad_tensor_zeros. apply Hwav. }
  cbn [bind]. rewrite (set_length_at _ _ m (size1 (wav x))).
  2: by rewrite length_map, length_replicate.
  2: by rewrite length_replicate.
  2: by rewrite list_lookup_fmap, Hx.
  reflexivity.
Qed.

Lemma collate_loop (k m : nat) :
  m + k = length batch ->
  foldM (collate_row batch ids) (seq m k) (buffers_at m fin init)
  = Ok (buffers_at (length batch) fin init).
Proof.
  revert m. induction k as [|k IH]; intros m Hmk; simpl.
  - by replace m with (length batch) by lia.
  - rewrite collate_row_step by lia. cbn [bind]. apply IH. lia.
Qed.

Lemma buffers_at_0 : buffers_at 0 fin init = init.
Proof. reflexivity. Qed.

Lemma buffers_at_end : buffers_at (length batch) fin init = fin.
Proof.
  pose proof sorted_length as Hsl. unfold buffers_at.
  cbn [text_padded text_lengths tone_padded tone_lengths f0_padded f0_lengths
       spec_padded spec_lengths wav_padded wav_lengths collated zero_buffers].
  rewrite !take_ge by (rewrite length_map; lia).
  rewrite !drop_ge by (rewrite length_replicate; lia).
  by rewrite !app_nil_r.
Qed.
End CollateLoop.

(** ** The collator: sorted, padded output *)

Lemma strongly_sorted_lookup {A : Type} (R : A -> A -> Prop) (l : list A) (i j : nat) (a b : A) :
  StronglySorted R l -> (forall x, R x x) -> i <= j ->
  l !! i = Some a -> l !! j = Some b -> R a b.
Proof.
  intros Hs Hrefl. revert i j. induction Hs as [|c l Hs IH Hall]; intros i j Hij Hi Hj.
  - rewrite lookup_nil in Hi. discriminate.
  - destruct i as [|i], j as [|j]; simpl in *; try lia.
    + injection Hi as <-. injection Hj as <-. apply Hrefl.
    + injection Hi as <-. rewrite Forall_forall in Hall.
      apply Hall. eapply list_elem_of_lookup_2. eassumption.
    + eapply IH; [| eassumption | eassumption]. lia.
Qed.

Section CollateSpec.
Context {F : Type} (fzero : F) (sort_descending : list nat -> list nat).

(** What the tensor library promises of the index output of a descending
    sort: it is a permutation of the positions, and the values read along it
    never increase.  The order among equal values is left open. *)
Hypothesis sort_perm : forall values, sort_descending values ≡ₚ seq 0 (length values).
Hypothesis sort_desc :
  forall values i j a b va vb,
    i <= j -> sort_descending values !! i = Some a -> sort_descending values !! j = Some b ->
    values !! a = Some va -> values !! b = Some vb -> vb <= va.

Lemma call_unfold (return_ids : bool) (batch : list (Sample F)) (first : Sample F) :
  head batch = Some first ->
  __call__ fzero sort_descending return_ids batch
  = let ids := sort_descending (map (fun x => size1 (spec x)) batch) in
    let* out := foldM (collate_row batch ids) (seq 0 (length ids))
                  (zero_buffers fzero (size0 (spec first)) batch) in
    Ok (out, if return_ids then Some ids else None).
Proof.
  intros Hfirst. destruct batch as [|x batch]; [discriminate|].
  injection Hfirst as ->. unfold __call__.
  rewrite !py_max_Ok by discriminate. reflexivity.
Qed.

Lemma sorted_exists (batch : list (Sample F)) (ids : list nat) :
  ids ≡ₚ seq 0 (length batch) ->
  exists sorted, Forall2 (fun id x => batch !! id = Some x) ids sorted.
Proof.
  intros Hperm.
  assert (Forall (fun id => id < length batch) ids) as Hb.
  { apply Forall_forall. intros id Hid. rewrite Hperm in Hid.
    apply elem_of_seq in Hid. lia. }
  clear Hperm. induction Hb as [|id ids Hid _ [sorted IH]]; [by exists [] |].
  destruct (lookup_lt_is_Some_2 batch id Hid) as [x Hx].
  exists (x :: sorted). by constructor.
Qed.

(** The only index order that sorts the values [[5, 3, 7]] downwards. *)
Lemma sort_5_3_7 : sort_descending [5; 3; 7] = [2; 0; 1].
Proof.
  pose proof (sort_perm [5; 3; 7]) as Hperm. pose proof (sort_desc [5; 3; 7]) as Hdesc.
  set (ids := sort_descending [5; 3; 7]) in *. simpl in Hperm.
  pose proof (Permutation_length Hperm) as Hlen.
  assert (NoDup ids) as Hnd by (rewrite Hperm; apply (NoDup_seq 0 3)).
  assert (forall id, id ∈ ids -> id < 3) as Hlt.
  { intros id Hid. rewrite Hperm in Hid. apply (elem_of_seq 0 3) in Hid. lia. }
  destruct ids as [|a [|b [|c [|]]]]; try discriminate.
  pose proof (Hlt a ltac:(rewrite !elem_of_cons; auto)).
  pose proof (Hlt b ltac:(rewrite !elem_of_cons; auto)).
  pose proof (Hlt c ltac:(rewrite !elem_of_cons; auto)).
  apply NoDup_cons in Hnd as [Hab Hnd]. apply NoDup_cons in Hnd as [Hbc _].
  rewrite !elem_of_cons in Hab. rewrite !elem_of_cons in Hbc.
  pose proof (fun va vb => Hdesc 0 1 a b va vb ltac:(lia) eq_refl eq_refl) as H01.
  pose proof (fun va vb => Hdesc 1 2 b c va vb ltac:(lia) eq_refl eq_refl) as H12.
  destruct a as [|[|[|]]], b as [|[|[|]]], c as [|[|[|]]]; try lia;
    try (exfalso; apply Hab; auto; fail); try (exfalso; apply Hbc; auto; fail);
    try (specialize (H01 _ _ eq_refl eq_refl); lia);
    try (specialize (H12 _ _ eq_refl eq_refl); lia).
  reflexivity.
Qed.

(** C7.  For a non-empty batch of samples (well-formed tensors, the feature
    dimension of the first sample throughout, one waveform row), the collator
    returns the buffers of the batch put in the order of the descending sort
    of the spec time-lengths: row [i] of every output is sample
    [ids_sorted_decreasing[i]], every field is zero-padded to that field's
    maximum over the batch, every length vector holds the true length at the
    sorted position, and the spec lengths never increase along the rows.  For
    three samples with spec time-lengths [[5, 3, 7]] the row order is
    [[2, 0, 1]], [spec_lengths] is [[7, 5, 3]] and every [spec] plane has 7
    columns. *)
Theorem collate_sorted_padded (return_ids : bool) (batch : list (Sample F)) (first : Sample F) :
  head batch = Some first ->
  Forall (sample_ok (size0 (spec first))) batch ->
  let ids := sort_descending (map (fun x => size1 (spec x)) batch) in
  exists (sorted : list (Sample F)) (out : Buffers F),
    __call__ fzero sort_descending return_ids batch
    = Ok (out, if return_ids then Some ids else None)
    /\ ids ≡ₚ seq 0 (length batch)
    /\ Forall2 (fun id x => batch !! id = Some x) ids sorted
    /\ out = collated fzero (size0 (spec first)) batch sorted
    /\ (forall i j a b, i <= j ->
          spec_lengths out !! i = Some (Some a) ->
          spec_lengths out !! j = Some (Some b) -> b <= a)
    /\ (map (fun x => size1 (spec x)) batch = [5; 3; 7] ->
        ids = [2; 0; 1]
        /\ spec_lengths out = [Some 7; Some 5; Some 3]
        /\ Forall (fun t => size1 t = 7) (spec_padded out)).
Proof.
  intros Hfirst Hok ids.
  assert (ids ≡ₚ seq 0 (length batch)) as Hperm.
  { subst ids. by rewrite sort_perm, length_map. }
  destruct (sorted_exists batch ids Hperm) as [sorted Hsorted].
  assert (length ids = length batch) as Hlen
    by (by rewrite (Permutation_length Hperm), length_seq).
  exists sorted, (collated fzero (size0 (spec first)) batch sorted).
  split.
  { rewrite (call_unfold _ _ first Hfirst). cbv zeta. fold ids.
    rewrite <- (buffers_at_0 fzero (size0 (spec first)) batch sorted).
    rewrite Hlen, (collate_loop fzero _ batch sorted ids Hok Hsorted Hlen) by lia.
    cbn [bind]. by rewrite (buffers_at_end fzero _ batch sorted ids Hsorted). }
  split; [done|]. split; [done|]. split; [done|]. split.
  { intros i j a b Hij Hi Hj. cbn [spec_lengths collated] in Hi, Hj.
    rewrite list_lookup_fmap in Hi, Hj.
    destruct (sorted !! i) as [xi|] eqn:Hxi; [| discriminate].
    destruct (sorted !! j) as [xj|] eqn:Hxj; [| discriminate].
    injection Hi as <-. injection Hj as <-.
    destruct (Forall2_lookup_r _ _ _ _ _ Hsorted Hxi) as (idi & Hidi & Hbi).
    destruct (Forall2_lookup_r _ _ _ _ _ Hsorted Hxj) as (idj & Hidj & Hbj).
    apply (sort_desc (map (fun x => size1 (spec x)) batch) i j idi idj); try done.
    - by rewrite list_lookup_fmap, Hbi.
    - by rewrite list_lookup_fmap, Hbj. }
  intros Hvals. assert (ids = [2; 0; 1]) as Hids.
  { subst ids. rewrite Hvals. apply sort_5_3_7. }
  split; [done|]. rewrite Hids in Hsorted.
  destruct batch as [|x0 [|x1 [|x2 [|]]]]; try discriminate.
  injection Hvals as H0 H1 H2.
  inversion Hsorted as [|? y0 ? l0 Hy0 Hs0]; subst.
  inversion Hs0 as [|? y1 ? l1 Hy1 Hs1]; subst.
  inversion Hs1 as [|? y2 ? l2 Hy2 Hs2]; subst.
  inversion Hs2; subst. simpl in Hy0, Hy1, Hy2.
  injection Hy0 as <-. injection Hy1 as <-. injection Hy2 as <-.
  cbn [spec_lengths spec_padded collated map]. rewrite H0, H1, H2. split; [done|].
  unfold field_max. cbn [map]. rewrite H0, H1, H2. repeat constructor.
Qed.
End CollateSpec.

(** ** The insertion argsort meets the contract of the sort *)

Lemma insert_desc_perm (v : nat -> nat) (i : nat) (l : list nat) :
  insert_desc v i l ≡ₚ i :: l.
Proof.
  induction l as [|j l IH]; simpl; [done|].
  destruct (decide (v j <= v i)); [done|]. rewrite IH. apply Permutation_swap.
Qed.

Lemma insert_desc_sorted (v : nat -> nat) (i : nat) (l : list nat) :
  StronglySorted (fun a b => v b <= v a) l ->
  StronglySorted (fun a b => v b <= v a) (insert_desc v i l).
Proof.
  induction 1 as [|j l Hs IH Hall]; simpl.
  - repeat constructor.
  - destruct (decide (v j <= v i)) as [Hle|Hgt].
    + constructor; [by constructor|]. constructor; [done|].
      eapply Forall_impl; [exact Hall|]. simpl. intros x Hx. lia.
    + constructor; [done|]. rewrite insert_desc_perm.
      constructor; [lia | done].
Qed.

Lemma argsort_desc_perm (values : list nat) :
  argsort_desc values ≡ₚ seq 0 (length values).
Proof.
  unfold argsort_desc. induction (seq 0 (length values)) as [|i l IH]; simpl; [done|].
  by rewrite insert_desc_perm, IH.
Qed.

Lemma argsort_desc_sorted (values : list nat) (i j a b va vb : nat) :
  i <= j -> argsort_desc values !! i = Some a -> argsort_desc values !! j = Some b ->
  values !! a = Some va -> values !! b = Some vb -> vb <= va.
Proof.
  intros Hij Hi Hj Ha Hb.
  assert (StronglySorted (fun a b => default 0 (values !! b) <= default 0 (values !! a))
            (argsort_desc values)) as Hs.
  { unfold argsort_desc. induction (seq 0 (length values)) as [|k l IH]; simpl.
    - constructor.
    - by apply insert_desc_sorted. }
  pose proof (strongly_sorted_lookup _ _ i j a b Hs ltac:(intros; simpl; lia) Hij Hi Hj) as H.
  simpl in H. by rewrite Ha, Hb in H.
Qed.

Lemma collate_sorted_padded_witness :
  let ids := argsort_desc (map (fun x => size1 (spec x)) demo_batch) in
  exists (sorted : list (Sample nat)) (out : Buffers nat),
    __call__ 0 argsort_desc true demo_batch = Ok (out, Some ids)
    /\ ids ≡ₚ seq 0 (length demo_batch)
    /\ Forall2 (fun id x => demo_batch !! id = Some x) ids sorted
    /\ out = collated 0 (size0 (spec (demo_sample 5))) demo_batch sorted
    /\ (forall i j a b, i <= j ->
          spec_lengths out !! i = Some (Some a) ->
          spec_lengths out !! j = Some (Some b) -> b <= a)
    /\ (map (fun x => size1 (spec x)) demo_batch = [5; 3; 7] ->
        ids = [2; 0; 1]
        /\ spec_lengths out = [Some 7; Some 5; Some 3]
        /\ Forall (fun t => size1 t = 7) (spec_padded out)).
Proof.
  apply (collate_sorted_padded 0 argsort_desc argsort_desc_perm argsort_desc_sorted
           true demo_batch (demo_sample 5)).
  - reflexivity.
  - repeat constructor.
Defined.

(** * Further properties of the code *)

(** ** [_bisect] on arbitrary boundaries *)

Lemma bisect_sound_from (boundaries : list Z) (x : Z) (n lo hi : nat) (r : Z) :
  hi - lo <= n -> _bisect boundaries x lo (Some hi) = Ok r ->
  r = (-1)%Z \/ exists i, r = Z.of_nat i /\ lo <= i < hi /\ in_bucket boundaries x i.
Proof.
  revert lo hi. induction n as [|n IH]; intros lo hi Hn;
    rewrite bisect_unfold; cbv zeta; unfold bisect_hi;
    destruct (decide (lo < hi)) as [Hlt|Hge];
    try (intros [= <-]; by left); [lia|].
  pose proof (bisect_mid_bounds lo hi Hlt) as Hmid.
  set (mid := (hi + lo) / 2) in *. unfold getitem.
  destruct (boundaries !! mid) as [bm|] eqn:Hbm; cbn [bind]; [| discriminate].
  destruct (bool_decide (bm < x)%Z) eqn:E1.
  - apply bool_decide_eq_true in E1.
    destruct (boundaries !! (mid + 1)) as [bn|] eqn:Hbn; cbn [bind]; [| discriminate].
    destruct (bool_decide (x <= bn)%Z) eqn:E2.
    + apply bool_decide_eq_true in E2. intros [= <-]. right.
      exists mid. split; [done|]. split; [lia|]. exists bm, bn. auto.
    + destruct (bool_decide (x <= bm)%Z); intros Hr;
        apply IH in Hr; try lia;
        (destruct Hr as [-> | (i & -> & Hi & Hin)]; [by left | right]);
        exists i; (split; [done|]); (split; [lia | done]).
  - cbn [bind]. destruct (bool_decide (x <= bm)%Z); intros Hr;
      apply IH in Hr; try lia;
      (destruct Hr as [-> | (i & -> & Hi & Hin)]; [by left | right]);
      exists i; (split; [done|]); (split; [lia | done]).
Qed.

(** X1.  Whatever the boundaries (sorted or not) and whatever the bounds,
    an answer of [_bisect] other than the sentinel is an index [i] within the
    bounds with [boundaries[i] < x <= boundaries[i+1]]. *)
Theorem bisect_sound (boundaries : list Z) (x : Z) (lo : nat) (hi : option nat) (r : Z) :
  _bisect boundaries x lo hi = Ok r ->
  r = (-1)%Z
  \/ exists i, r = Z.of_nat i /\ lo <= i < bisect_hi boundaries hi
               /\ in_bucket boundaries x i.
Proof.
  intros Hr. apply (bisect_sound_from boundaries x (bisect_hi boundaries hi - lo)); [lia|].
  destruct hi as [h|]; [done|]. by rewrite <- bisect_default.
Qed.

Lemma bisect_sound_witness :
  (1 = -1)%Z
  \/ exists i, 1%Z = Z.of_nat i /\ 0 <= i < bisect_hi [30; 10; 20; 5]%Z None
               /\ in_bucket [30; 10; 20; 5]%Z 15%Z i.
Proof.
  apply (bisect_sound [30; 10; 20; 5]%Z 15%Z 0 None 1%Z). vm_compute. reflexivity.
Defined.

(** ** [_create_buckets]: what the first loop builds *)

Lemma buckets_upto_init (boundaries lengths : list Z) :
  buckets_upto boundaries lengths 0 (replicate (length boundaries - 1) []).
Proof.
  split; [apply length_replicate|].
  intros j bucket Hj. apply lookup_replicate in Hj. destruct Hj as [-> _].
  split; [constructor|]. intros k. rewrite elem_of_nil. split; [done | lia].
Qed.

Lemma buckets_upto_skip (boundaries lengths : list Z) (i : nat) (x : Z)
    (buckets : list (list nat)) :
  lengths !! i = Some x -> _bisect boundaries x 0 None = Ok (-1)%Z ->
  buckets_upto boundaries lengths i buckets ->
  buckets_upto boundaries lengths (S i) buckets.
Proof.
  intros Hx Hr [Hlen Hinv]. split; [done|].
  intros j bucket Hj. destruct (Hinv j bucket Hj) as [Hs Hmem]. split; [done|].
  intros k. rewrite Hmem. split.
  - intros [Hk Hex]. split; [lia | done].
  - intros [Hk (y & Hy & Hb)]. split; [| by exists y].
    destruct (decide (k = i)) as [->|]; [| lia].
    rewrite Hx in Hy. injection Hy as <-. rewrite Hr in Hb. injection Hb. lia.
Qed.

Lemma buckets_upto_append (boundaries lengths : list Z) (i j0 : nat) (x : Z)
    (buckets : list (list nat)) (row : list nat) :
  lengths !! i = Some x -> _bisect boundaries x 0 None = Ok (Z.of_nat j0) ->
  buckets !! j0 = Some row ->
  buckets_upto boundaries lengths i buckets ->
  buckets_upto boundaries lengths (S i) (<[j0 := row ++ [i]]> buckets).
Proof.
  intros Hx Hr Hrow [Hlen Hinv]. split; [by rewrite length_insert|].
  intros j bucket Hj. destruct (decide (j = j0)) as [->|Hne].
  - rewrite list_lookup_insert_eq in Hj by (by eapply lookup_lt_Some).
    injection Hj as <-. destruct (Hinv j0 row Hrow) as [Hs Hmem]. split.
    + apply StronglySorted_app_2; [| done | repeat constructor].
      intros k1 k2 Hk1 Hk2. apply list_elem_of_singleton in Hk2. subst.
      by apply Hmem in Hk1 as [? _].
    + intros k. rewrite elem_of_app, list_elem_of_singleton, Hmem. split.
      * intros [[Hk Hex] | ->]; [split; [lia | done] | split; [lia | by exists x]].
      * intros [Hk Hex]. destruct (decide (k = i)) as [->|]; [by right | left].
        split; [lia | done].
  - rewrite list_lookup_insert_ne in Hj by done.
    destruct (Hinv j bucket Hj) as [Hs Hmem]. split; [done|].
    intros k. rewrite Hmem. split.
    + intros [Hk Hex]. split; [lia | done].
    + intros [Hk (y & Hy & Hb)]. split; [| by exists y].
      destruct (decide (k = i)) as [->|]; [| lia].
      rewrite Hx in Hy. injection Hy as <-. rewrite Hr in Hb. injection Hb. lia.
Qed.

(** The first loop never raises and files every sample under the index the
    search answers for it. *)
Lemma assign_buckets_inv (boundaries all : list Z) (lengths : list Z) (i : nat)
    (buckets : list (list nat)) :
  drop i all = lengths -> buckets_upto boundaries all i buckets ->
  exists buckets', assign_buckets boundaries i lengths buckets = Ok buckets'
                   /\ buckets_upto boundaries all (i + length lengths) buckets'.
Proof.
  revert i buckets. induction lengths as [|x rest IH]; intros i buckets Hdrop Hinv.
  - exists buckets. split; [done|]. by rewrite Nat.add_0_r.
  - assert (all !! i = Some x) as Hx.
    { rewrite <- (Nat.add_0_r i), <- lookup_drop, Hdrop. done. }
    assert (drop (S i) all = rest) as Hdrop'.
    { rewrite (drop_S all x i Hx) in Hdrop. by injection Hdrop. }
    destruct (bisect_default_returns boundaries x) as (r & Hr & Hrange).
    cbn [assign_buckets]. rewrite Hr. cbn [bind].
    replace (i + length (x :: rest)) with (S i + length rest) by (simpl; lia).
    destruct Hrange as [-> | Hrange].
    + rewrite bool_decide_eq_false_2 by (intros H; by apply H). cbn [bind].
      apply IH; [done|]. by eapply buckets_upto_skip.
    + rewrite bool_decide_eq_true_2 by lia.
      assert (r = Z.of_nat (Z.to_nat r)) as Hrn by lia.
      destruct (getitem_lt buckets (Z.to_nat r)) as (row & Hrow & Hrow').
      { rewrite (proj1 Hinv). lia. }
      unfold append_at. rewrite Hrow. cbn [bind].
      apply IH; [done|]. rewrite Hrn in Hr. by eapply buckets_upto_append.
Qed.

(** ** [_create_buckets]: what the pruning loop does *)

Lemma prune_empty_spec (i : nat) (bks : list (list nat)) (bnds : list Z) :
  i = 0 \/ (i < length bks /\ length bnds = length bks + 1) ->
  (forall j b, i < j -> bks !! j = Some b -> b <> []) ->
  exists st', prune_empty i (bks, bnds) = Ok st'
              /\ rtc pop_step (bks, bnds) st'
              /\ (forall j b, 0 < j -> st'.1 !! j = Some b -> b <> []).
Proof.
  revert bks bnds. induction i as [|i IH]; intros bks bnds Hpre Hne.
  - exists (bks, bnds). split; [done|]. split; [apply rtc_refl | done].
  - destruct Hpre as [|[Hi Hlen]]; [lia|].
    destruct (getitem_lt bks (S i) Hi) as (bucket & Hb & Hb').
    cbn [prune_empty fst snd]. rewrite Hb. cbn [bind].
    destruct (decide (length bucket = 0)) as [Hz|Hnz].
    + apply nil_length_inv in Hz. subst bucket. unfold list_pop.
      rewrite decide_True by done. cbn [bind]. rewrite decide_True by lia. cbn [bind].
      destruct (IH (delete (S i) bks) (delete (S i + 1) bnds)) as (st' & Hst & Hrtc & Hall).
      { destruct i as [|i]; [by left | right].
        rewrite !length_delete by (apply lookup_lt_is_Some_2; lia). lia. }
      { intros j b Hj Hjb. rewrite list_lookup_delete_ge in Hjb by lia.
        apply (Hne (S j)); [lia | done]. }
      exists st'. split; [done|]. split; [| done].
      eapply rtc_l; [| exact Hrtc]. exists (S i). split; [lia|]. by split.
    + cbn [bind]. apply IH.
      * destruct i as [|i]; [by left | right]. split; [lia | done].
      * intros j b Hj Hjb. destruct (decide (j = S i)) as [->|].
        -- rewrite Hb' in Hjb. injection Hjb as <-. intros ->. by apply Hnz.
        -- apply (Hne j); [lia | done].
Qed.

Lemma pop_step_concat (st st' : list (list nat) * list Z) :
  pop_step st st' -> concat st'.1 = concat st.1.
Proof.
  intros (i & _ & Hi & ->). cbn [fst].
  rewrite <- (take_drop_middle st.1 i [] Hi) at 2.
  by rewrite delete_take_drop, !concat_app.
Qed.

Lemma StronglySorted_delete {A : Type} (R : A -> A -> Prop) (l : list A) (i : nat) :
  StronglySorted R l -> StronglySorted R (delete i l).
Proof.
  intros Hs. revert i. induction Hs as [|x l Hs IH Hall]; intros i;
    [destruct i; constructor|].
  destruct i as [|i]; simpl; [done|]. constructor; [apply IH | by apply Forall_delete].
Qed.

Lemma Sorted_le_delete (l : list Z) (i : nat) : Sorted Z.le l -> Sorted Z.le (delete i l).
Proof.
  intros Hs. apply StronglySorted_Sorted, StronglySorted_delete.
  apply Sorted_StronglySorted; [intros ? ? ?; lia | done].
Qed.

(** A removal keeps the buckets and the boundaries aligned, the boundaries
    ascending, and every sample within the interval of its bucket. *)
Lemma pop_step_fit (lengths : list Z) (st st' : list (list nat) * list Z) :
  pop_step st st' ->
  length st.2 = length st.1 + 1 /\ Sorted Z.le st.2 /\ buckets_fit lengths st ->
  length st'.2 = length st'.1 + 1 /\ Sorted Z.le st'.2 /\ buckets_fit lengths st'.
Proof.
  destruct st as [bks bnds]. intros (i & Hpos & Hi & ->) (Hlen & Hs & Hfit).
  cbn [fst snd] in *. pose proof (lookup_lt_Some _ _ _ Hi) as Hilt.
  split; [| split].
  - rewrite !length_delete by (apply lookup_lt_is_Some_2; lia). lia.
  - by apply Sorted_le_delete.
  - intros j bucket k Hj Hk. cbn [fst snd] in *.
    destruct (decide (j < i)) as [Hlt|Hge].
    + rewrite list_lookup_delete_lt in Hj by done.
      destruct (Hfit j bucket k Hj Hk) as (x & Hx & a & b & Ha & Hb & Hab).
      exists x. split; [done|]. exists a, b.
      rewrite !list_lookup_delete_lt by lia. auto.
    + rewrite list_lookup_delete_ge in Hj by lia.
      destruct (Hfit (S j) bucket k Hj Hk) as (x & Hx & a & b & Ha & Hb & Hab).
      cbn [fst snd] in *. exists x. split; [done|].
      destruct (decide (j = i)) as [->|Hne].
      * destruct (lookup_lt_is_Some_2 bnds i ltac:(lia)) as [a' Ha'].
        pose proof (sorted_lookup_le bnds i (S i) a' a Hs ltac:(lia) Ha' Ha).
        exists a', b. rewrite list_lookup_delete_lt by lia.
        rewrite list_lookup_delete_ge by lia.
        replace (S (i + 1)) with (S i + 1) by lia. split; [done|]. split; [done | lia].
      * exists a, b. rewrite !list_lookup_delete_ge by lia.
        replace (S (j + 1)) with (S j + 1) by lia. auto.
Qed.

Lemma pop_steps_fit (lengths : list Z) (st st' : list (list nat) * list Z) :
  rtc pop_step st st' ->
  length st.2 = length st.1 + 1 /\ Sorted Z.le st.2 /\ buckets_fit lengths st ->
  length st'.2 = length st'.1 + 1 /\ Sorted Z.le st'.2 /\ buckets_fit lengths st'.
Proof.
  induction 1 as [|st st1 st' Hstep _ IH]; [done|].
  intros H. apply IH. by eapply pop_step_fit.
Qed.

Lemma pop_steps_concat (st st' : list (list nat) * list Z) :
  rtc pop_step st st' -> concat st'.1 = concat st.1.
Proof.
  induction 1 as [|st st1 st' Hstep _ IH]; [done|].
  by rewrite IH, (pop_step_concat _ _ Hstep).
Qed.

Lemma pop_steps_align (st st' : list (list nat) * list Z) :
  rtc pop_step st st' -> length st.2 = length st.1 + 1 ->
  length st'.2 = length st'.1 + 1 /\ head st'.1 = head st.1
  /\ head st'.2 = head st.2 /\ st'.2 `sublist_of` st.2.
Proof.
  induction 1 as [st|st st1 st' (i & Hpos & Hi & ->) _ IH]; [done|].
  intros Hlen. pose proof (lookup_lt_Some _ _ _ Hi) as Hilt.
  destruct IH as (Hl & Hh1 & Hh2 & Hsub).
  { cbn [fst snd]. rewrite !length_delete by (apply lookup_lt_is_Some_2; lia). lia. }
  cbn [fst snd] in *. split; [done|].
  rewrite Hh1, Hh2, !head_lookup.
  rewrite !list_lookup_delete_lt by lia. split; [done|]. split; [done|].
  etrans; [exact Hsub | apply sublist_delete].
Qed.

(** What [_create_buckets] returns, in terms of its two loops. *)
Lemma create_buckets_inv (lengths boundaries : list Z) (batch_size num_replicas : nat)
    (bks : list (list nat)) (counts : list nat) (boundaries' : list Z) :
  _create_buckets lengths boundaries batch_size num_replicas = Ok (bks, counts, boundaries') ->
  exists bks0,
    buckets_upto boundaries lengths (length lengths) bks0
    /\ rtc pop_step (bks0, boundaries) (bks, boundaries')
    /\ (forall j b, 0 < j -> bks !! j = Some b -> b <> []).
Proof.
  unfold _create_buckets. intros H.
  destruct (assign_buckets_inv boundaries lengths lengths 0
              (replicate (length boundaries - 1) []) eq_refl
              (buckets_upto_init boundaries lengths)) as (bks0 & Hassign & Hinv).
  rewrite Hassign in H. cbn [bind] in H. simpl in Hinv.
  destruct (prune_empty_spec (length bks0 - 1) bks0 boundaries) as (st' & Hprune & Hrtc & Hne).
  { destruct (decide (length bks0 - 1 = 0)) as [|Hnz]; [by left | right].
    rewrite (proj1 Hinv) in *. lia. }
  { intros j b Hj Hjb. apply lookup_lt_Some in Hjb. lia. }
  rewrite Hprune in H. cbn [bind] in H. inv_bind H. injection H as <- <- <-.
  exists bks0. destruct st' as [bks' bnds']. cbn [fst snd] in *. auto.
Qed.

(** The two loops never raise: what is left to [_create_buckets] is the
    computation of the padded counts. *)
Lemma create_buckets_run (lengths boundaries : list Z) (batch_size num_replicas : nat) :
  exists bks0 bks boundaries',
    buckets_upto boundaries lengths (length lengths) bks0
    /\ rtc pop_step (bks0, boundaries) (bks, boundaries')
    /\ (forall j b, 0 < j -> bks !! j = Some b -> b <> [])
    /\ (2 <= length boundaries -> bks <> [])
    /\ _create_buckets lengths boundaries batch_size num_replicas
       = let* counts :=
           mapM (fun bucket => padded_count num_replicas batch_size (length bucket)) bks in
         Ok (bks, counts, boundaries').
Proof.
  unfold _create_buckets.
  destruct (assign_buckets_inv boundaries lengths lengths 0
              (replicate (length boundaries - 1) []) eq_refl
              (buckets_upto_init boundaries lengths)) as (bks0 & Hassign & Hinv).
  rewrite Hassign. cbn [bind]. simpl in Hinv.
  destruct (prune_empty_spec (length bks0 - 1) bks0 boundaries)
    as ([bks bnds'] & Hprune & Hrtc & Hne).
  { destruct (decide (length bks0 - 1 = 0)) as [|Hnz]; [by left | right].
    rewrite (proj1 Hinv) in *. lia. }
  { intros j b Hj Hjb. apply lookup_lt_Some in Hjb. lia. }
  rewrite Hprune. cbn [bind fst snd] in *.
  exists bks0, bks, bnds'.
  split; [done|]. split; [done|]. split; [done|]. split; [| done].
  intros Hlen ->. destruct (pop_steps_align _ _ Hrtc) as (_ & Hhead & _).
  { cbn [fst snd]. rewrite (proj1 Hinv). lia. }
  cbn [fst snd] in Hhead. destruct bks0 as [|b0 bks0]; [| discriminate].
  pose proof (proj1 Hinv) as H0. simpl in H0. lia.
Qed.

(** X2.  With at least two boundaries, [_create_buckets] raises exactly when
    [num_replicas * batch_size] is zero, and then it is [ZeroDivisionError]:
    neither loop over the buckets and the boundaries can read or pop out of
    range, whatever the sample lengths and the boundaries. *)
Theorem create_buckets_raises (lengths boundaries : list Z) (batch_size num_replicas : nat) :
  2 <= length boundaries ->
  (num_replicas * batch_size = 0 ->
   _create_buckets lengths boundaries batch_size num_replicas = Raise ZeroDivisionError)
  /\ (0 < num_replicas * batch_size ->
      exists r, _create_buckets lengths boundaries batch_size num_replicas = Ok r).
Proof.
  intros Hlen.
  destruct (create_buckets_run lengths boundaries batch_size num_replicas)
    as (bks0 & bks & bnds' & Hinv & Hrtc & _ & Hne & ->).
  specialize (Hne Hlen). split.
  - intros Hz. destruct bks as [|b bks]; [done|]. cbn [mapM].
    unfold padded_count, py_mod. rewrite decide_True by done. reflexivity.
  - intros Hpos.
    destruct (mapM_total
                (fun bucket => padded_count num_replicas batch_size (length bucket)) bks)
      as [counts ->]; [| cbn [bind]; by eexists].
    apply Forall_forall. intros b _. unfold padded_count, py_mod.
    rewrite decide_False by lia. cbn [bind]. rewrite decide_False by lia. by eexists.
Qed.

Lemma create_buckets_raises_witness :
  (2 * 0 = 0 ->
   _create_buckets [15; 5]%Z [0; 10; 20]%Z 0 2 = Raise ZeroDivisionError)
  /\ (0 < 2 * 0 -> exists r, _create_buckets [15; 5]%Z [0; 10; 20]%Z 0 2 = Ok r).
Proof. apply (create_buckets_raises [15; 5]%Z [0; 10; 20]%Z 0 2). simpl. lia. Defined.

(** X3.  What comes out of the pruning: with at least one boundary, the
    boundary list is one longer than the bucket list, starts with the first
    boundary given and is a sub-list of the boundaries given; no bucket at an
    index above [0] is empty, and with two boundaries or more there is at
    least one bucket. *)
Theorem create_buckets_shape (lengths boundaries : list Z) (batch_size num_replicas : nat)
    (bks : list (list nat)) (counts : list nat) (boundaries' : list Z) :
  _create_buckets lengths boundaries batch_size num_replicas = Ok (bks, counts, boundaries') ->
  1 <= length boundaries ->
  length boundaries' = length bks + 1
  /\ head boundaries' = head boundaries
  /\ boundaries' `sublist_of` boundaries
  /\ (forall j b, 0 < j -> bks !! j = Some b -> b <> [])
  /\ (2 <= length boundaries -> 1 <= length bks).
Proof.
  intros H Hlen. destruct (create_buckets_inv _ _ _ _ _ _ _ H) as (bks0 & Hinv & Hrtc & Hne).
  destruct (pop_steps_align _ _ Hrtc) as (Hal & Hh1 & Hh2 & Hsub).
  { cbn [fst snd]. rewrite (proj1 Hinv). lia. }
  cbn [fst snd] in *. repeat split; try done.
  intros Hlen2. destruct bks0 as [|b0 bks0].
  { pose proof (proj1 Hinv) as H0. simpl in H0. lia. }
  destruct bks; [discriminate | simpl; lia].
Qed.

Lemma create_buckets_shape_witness :
  length [0; 10; 20]%Z = length [@nil nat; [0; 1; 2]] + 1
  /\ head [0; 10; 20]%Z = head [0; 10; 20; 30]%Z
  /\ [0; 10; 20]%Z `sublist_of` [0; 10; 20; 30]%Z
  /\ (forall j b, 0 < j -> [@nil nat; [0; 1; 2]] !! j = Some b -> b <> [])
  /\ (2 <= length [0; 10; 20; 30]%Z -> 1 <= length [@nil nat; [0; 1; 2]]).
Proof.
  apply (create_buckets_shape [15; 12; 18]%Z [0; 10; 20; 30]%Z 1 1
           [[]; [0; 1; 2]] [0; 3] [0; 10; 20]%Z);
    [vm_compute; reflexivity | simpl; lia].
Defined.

(** ** [_create_buckets]: the samples of a bucket *)

Lemma buckets_upto_fit (boundaries lengths : list Z) (bks0 : list (list nat)) :
  buckets_upto boundaries lengths (length lengths) bks0 ->
  buckets_fit lengths (bks0, boundaries).
Proof.
  intros [_ Hinv] j bucket k Hj Hk. cbn [fst snd] in *.
  destruct (Hinv j bucket Hj) as [_ Hmem].
  apply Hmem in Hk as (_ & x & Hx & Hb). exists x. split; [done|].
  rewrite bisect_default in Hb.
  destruct (bisect_sound_from boundaries x _ 0 _ _ (Nat.le_refl _) Hb)
    as [Hneg | (i & Hi & _ & Hin)]; [lia|].
  apply Nat2Z.inj in Hi. by subst.
Qed.

(** X4.  Bucket fidelity.  For ascending boundaries, every sample index that
    [_create_buckets] leaves in bucket [j] is an index of the length list, and
    its length lies in the interval that the returned (pruned) boundaries
    give to bucket [j]:
    [boundaries'[j] < lengths[k] <= boundaries'[j+1]]; the returned boundaries
    are ascending again. *)
Theorem create_buckets_fidelity (lengths boundaries : list Z) (batch_size num_replicas : nat)
    (bks : list (list nat)) (counts : list nat) (boundaries' : list Z) :
  _create_buckets lengths boundaries batch_size num_replicas = Ok (bks, counts, boundaries') ->
  Sorted Z.le boundaries -> 1 <= length boundaries ->
  Sorted Z.le boundaries'
  /\ forall j bucket k, bks !! j = Some bucket -> k ∈ bucket ->
       exists x, lengths !! k = Some x /\ in_bucket boundaries' x j.
Proof.
  intros H Hs Hlen. destruct (create_buckets_inv _ _ _ _ _ _ _ H) as (bks0 & Hinv & Hrtc & _).
  destruct (pop_steps_fit lengths _ _ Hrtc) as (_ & Hs' & Hfit).
  { cbn [fst snd]. split; [rewrite (proj1 Hinv); lia|]. split; [done|].
    by apply buckets_upto_fit. }
  split; [done|]. exact Hfit.
Qed.

Lemma create_buckets_fidelity_witness :
  Sorted Z.le [0; 10; 30]%Z
  /\ forall j bucket k, [[3]; [4; 5]] !! j = Some bucket -> k ∈ bucket ->
       exists x, [40; 0; -3; 7; 25; 30]%Z !! k = Some x /\ in_bucket [0; 10; 30]%Z x j.
Proof.
  apply (create_buckets_fidelity [40; 0; -3; 7; 25; 30]%Z [0; 10; 20; 30]%Z 1 1
           [[3]; [4; 5]] [1; 2] [0; 10; 30]%Z);
    [vm_compute; reflexivity | repeat constructor; lia | simpl; lia].
Defined.

Lemma elem_of_concat {A : Type} (k : A) (l : list (list A)) :
  k ∈ concat l <-> exists j b, l !! j = Some b /\ k ∈ b.
Proof.
  induction l as [|b l IH]; simpl.
  - rewrite elem_of_nil. split; [done | intros (j & b & Hj & _); by destruct j].
  - rewrite elem_of_app, IH. split.
    + intros [Hk | (j & b' & Hj & Hk)]; [by exists 0, b | by exists (S j), b'].
    + intros ([|j] & b' & Hj & Hk); simpl in Hj; [injection Hj as <-; by left|].
      right. by exists j, b'.
Qed.

Lemma NoDup_concat_lookup {A : Type} (l : list (list A)) :
  (forall j b, l !! j = Some b -> NoDup b) ->
  (forall j1 j2 b1 b2 k, l !! j1 = Some b1 -> l !! j2 = Some b2 ->
                         k ∈ b1 -> k ∈ b2 -> j1 = j2) ->
  NoDup (concat l).
Proof.
  induction l as [|b l IH]; intros Hnd Hdisj; simpl; [constructor|].
  apply NoDup_app. split; [by apply (Hnd 0)|]. split.
  - intros k Hk Hin. apply elem_of_concat in Hin as (j & b' & Hj & Hk').
    by pose proof (Hdisj 0 (S j) b b' k eq_refl Hj Hk Hk').
  - apply IH.
    + intros j b' Hj. by apply (Hnd (S j)).
    + intros j1 j2 b1 b2 k H1 H2 Hk1 Hk2.
      by pose proof (Hdisj (S j1) (S j2) b1 b2 k H1 H2 Hk1 Hk2) as [= ->].
Qed.

Lemma StronglySorted_lt_NoDup (l : list nat) : StronglySorted lt l -> NoDup l.
Proof.
  induction 1 as [|x l _ IH Hall]; constructor; [| done].
  intros Hin. rewrite Forall_forall in Hall. specialize (Hall x Hin). lia.
Qed.

Lemma pop_steps_Forall (P : list nat -> Prop) (st st' : list (list nat) * list Z) :
  rtc pop_step st st' -> Forall P st.1 -> Forall P st'.1.
Proof.
  induction 1 as [|st st1 st' (i & _ & _ & ->) _ IH]; [done|].
  intros HP. apply IH. cbn [fst]. by apply Forall_delete.
Qed.

(** For ascending boundaries, the samples the search files somewhere are
    those within the outer boundaries. *)
Lemma bisect_in_range (boundaries : list Z) (x : Z) :
  Sorted Z.le boundaries -> 2 <= length boundaries ->
  ~ out_of_range boundaries x <-> exists j, _bisect boundaries x 0 None = Ok (Z.of_nat j).
Proof.
  intros Hs Hlen. split.
  - intros Hin.
    destruct (head boundaries) as [b0|] eqn:Hh;
      [| destruct boundaries; [simpl in Hlen; lia | discriminate]].
    destruct (last boundaries) as [bl|] eqn:Hl;
      [| apply last_None in Hl; subst; simpl in Hlen; lia].
    destruct (in_bucket_exists boundaries x b0 bl Hh Hl) as [i Hi].
    { destruct (decide (x <= b0)%Z); [exfalso; apply Hin; exists b0, bl; auto|].
      destruct (decide (bl < x)%Z); [exfalso; apply Hin; exists b0, bl; auto|]. lia. }
    exists i. by apply bisect_found.
  - intros [j Hj]. rewrite bisect_default in Hj.
    destruct (bisect_sound_from boundaries x _ 0 _ _ (Nat.le_refl _) Hj)
      as [Hneg | (i & _ & _ & Hin)]; [lia|].
    by eapply in_bucket_in_range.
Qed.

(** X5.  The buckets partition the samples in range.  For ascending
    boundaries (two or more), every bucket returned by [_create_buckets] lists
    its sample indices in ascending order, no index occurs twice in or across
    the buckets, and the indices in the buckets are exactly the positions of
    the length list whose length [x] satisfies
    [boundaries[0] < x <= boundaries[-1]]; the others are dropped. *)
Theorem create_buckets_partition (lengths boundaries : list Z) (batch_size num_replicas : nat)
    (bks : list (list nat)) (counts : list nat) (boundaries' : list Z) :
  _create_buckets lengths boundaries batch_size num_replicas = Ok (bks, counts, boundaries') ->
  Sorted Z.le boundaries -> 2 <= length boundaries ->
  Forall (StronglySorted lt) bks
  /\ NoDup (concat bks)
  /\ forall k, k ∈ concat bks <->
       exists x, lengths !! k = Some x /\ ~ out_of_range boundaries x.
Proof.
  intros H Hs Hlen. destruct (create_buckets_inv _ _ _ _ _ _ _ H) as (bks0 & Hinv & Hrtc & _).
  pose proof (pop_steps_concat _ _ Hrtc) as Hconcat. cbn [fst] in Hconcat.
  destruct Hinv as [Hlen0 Hinv]. split; [| rewrite Hconcat; split].
  - apply (pop_steps_Forall _ _ _ Hrtc). cbn [fst]. apply Forall_lookup.
    intros j b Hj. by apply (Hinv j b Hj).
  - apply NoDup_concat_lookup.
    + intros j b Hj. apply StronglySorted_lt_NoDup. by apply (Hinv j b Hj).
    + intros j1 j2 b1 b2 k H1 H2 Hk1 Hk2.
      apply (Hinv j1 b1 H1) in Hk1 as (_ & x1 & Hx1 & Hb1).
      apply (Hinv j2 b2 H2) in Hk2 as (_ & x2 & Hx2 & Hb2).
      rewrite Hx1 in Hx2. injection Hx2 as <-. rewrite Hb1 in Hb2.
      injection Hb2 as Heq. by apply Nat2Z.inj in Heq.
  - intros k. rewrite elem_of_concat. split.
    + intros (j & b & Hj & Hk). apply (Hinv j b Hj) in Hk as (_ & x & Hx & Hb).
      exists x. split; [done|]. apply bisect_in_range; [done | done |]. by exists j.
    + intros (x & Hx & Hin). apply bisect_in_range in Hin as [j Hj]; [| done | done].
      rewrite bisect_default in Hj.
      destruct (bisect_sound_from boundaries x _ 0 _ _ (Nat.le_refl _) Hj)
        as [Hneg | (i & Hi & Hrange & _)]; [lia|].
      apply Nat2Z.inj in Hi. subst i.
      destruct (lookup_lt_is_Some_2 bks0 j) as [b Hb]; [unfold bisect_hi in Hrange; lia|].
      exists j, b. split; [done|]. apply (Hinv j b Hb).
      split; [by eapply lookup_lt_Some|]. exists x. split; [done|].
      by rewrite bisect_default.
Qed.

Lemma create_buckets_partition_witness :
  Forall (StronglySorted lt) [[3]; [4; 5]]
  /\ NoDup (concat [[3]; [4; 5]])
  /\ forall k, k ∈ concat [[3]; [4; 5]] <->
       exists x, [40; 0; -3; 7; 25; 30]%Z !! k = Some x
                 /\ ~ out_of_range [0; 10; 20; 30]%Z x.
Proof.
  apply (create_buckets_partition [40; 0; -3; 7; 25; 30]%Z [0; 10; 20; 30]%Z 1 1
           [[3]; [4; 5]] [1; 2] [0; 10; 30]%Z);
    [vm_compute; reflexivity | repeat constructor; lia | simpl; lia].
Defined.

(** ** [__init__] *)

Lemma py_sum_multiple (counts : list nat) (T : nat) :
  Forall (fun p => exists k, p = k * T) counts -> exists k, py_sum counts = k * T.
Proof.
  induction 1 as [|p counts [k ->] _ [k' IH]]; simpl; [by exists 0|].
  rewrite IH. exists (k + k'). lia.
Qed.



(** X7.  The sizes a constructed sampler stores: [total_size] is a multiple
    of [num_replicas * batch_size], the floor division that gives
    [num_samples] is exact ([num_samples * num_replicas == total_size]), and
    [num_samples] is a multiple of [batch_size]. *)
Theorem init_sizes (dataset_lengths : list Z) (B : nat) (bnds : list Z) (R rk : nat)
    (sh : bool) (s : Sampler) :
  __init__ dataset_lengths B bnds R rk sh = Ok s ->
  total_size s = py_sum (num_samples_per_bucket s)
  /\ (exists k, total_size s = k * (R * B))
  /\ num_samples s * R = total_size s
  /\ (exists k, num_samples s = k * B).
Proof.
  intros Hinit.
  destruct (init_inv _ _ _ _ _ _ _ Hinit) as ((Hpad & Htot & HR & Hns) & <- & <- & _).
  assert (exists k, py_sum (num_samples_per_bucket s) = k * (num_replicas s * batch_size s))
    as [k Hk].
  { apply py_sum_multiple. apply Forall_forall. intros p Hp.
    apply list_elem_of_lookup in Hp as [i Hi].
    destruct (Forall2_lookup_r _ _ _ _ _ Hpad Hi) as (bucket & _ & Hpc).
    by destruct (padded_count_multiple _ _ _ _ Hpc) as [_ Hm]. }
  assert (num_samples s = k * batch_size s) as Hn.
  { rewrite Hns, Htot, Hk.
    replace (k * (num_replicas s * batch_size s))
      with (k * batch_size s * num_replicas s) by lia.
    by apply Nat.div_mul. }
  split; [done|]. split; [exists k; by rewrite Htot|]. split; [| by exists k].
  rewrite Hn, Htot, Hk. lia.
Qed.

Lemma init_sizes_witness :
  total_size (demo_sampler true) = py_sum (num_samples_per_bucket (demo_sampler true))
  /\ (exists k, total_size (demo_sampler true) = k * (2 * 2))
  /\ num_samples (demo_sampler true) * 2 = total_size (demo_sampler true)
  /\ (exists k, num_samples (demo_sampler true) = k * 2).
Proof.
  apply (init_sizes [15; 12; 18; 5; 25; 31; 0; 7; 8]%Z 2 [0; 10; 20; 30]%Z 2 1 true
           (demo_sampler true)).
  vm_compute. reflexivity.
Defined.

Lemma init_buckets (dataset_lengths : list Z) (B : nat) (bnds : list Z) (R rk : nat)
    (sh : bool) (s : Sampler) :
  __init__ dataset_lengths B bnds R rk sh = Ok s ->
  _create_buckets dataset_lengths bnds B R
  = Ok (buckets s, num_samples_per_bucket s, boundaries s).
Proof.
  unfold __init__. intros H. inv_bind H. destruct a as [[bks counts] bnds'].
  inv_bind H. injection H as <-. done.
Qed.

(** ** [__iter__] and [__len__] *)

Section IterMore.
Context (Gen : Type) (manual_seed : Z -> Gen) (randperm : nat -> Gen -> list nat * Gen).
Hypothesis randperm_perm : forall n g, (randperm n g).1 ≡ₚ seq 0 n.

Local Notation iter := (__iter__ Gen manual_seed randperm).
Local Notation outcome := (iter_outcome Gen manual_seed randperm).

(** X8.  [__len__] agrees with [__iter__]: for a constructed sampler with
    [batch_size > 0], a rank below [num_replicas] and no empty bucket,
    [len(sampler)] is the number of batches that [__iter__] returns, for every
    epoch. *)
Theorem len_counts_batches (dataset_lengths : list Z) (B : nat) (bnds : list Z) (R rk : nat)
    (sh : bool) (e : Z) (s : Sampler) :
  __init__ dataset_lengths B bnds R rk sh = Ok s ->
  0 < B -> rk < R ->
  Forall (fun bucket => bucket <> []) (buckets s) ->
  exists all_batches,
    (iter (set_epoch s e)).1 = Ok all_batches
    /\ __len__ (set_epoch s e) = Ok (length all_batches)
    /\ __len__ s = Ok (length all_batches).
Proof.
  intros Hinit HB Hrk Hne.
  destruct (init_inv _ _ _ _ _ _ _ Hinit) as (Hinv & <- & <- & <- & _ & _).
  destruct (iter_outcome_Ok Gen manual_seed randperm randperm_perm (set_epoch s e))
    as (all & Hall & Hcount & _); [exact Hinv | done | done | done |].
  cbn [set_epoch batch_size num_replicas num_samples_per_bucket] in Hcount.
  exists all. rewrite iter_fst. split; [done|].
  destruct Hinv as (_ & Htot & _ & Hns).
  assert (py_floordiv (num_samples s) (batch_size s) = Ok (length all)) as Hlen.
  { unfold py_floordiv. rewrite decide_False by lia. f_equal.
    rewrite Hns, Htot, <- Hcount. apply Nat.div_mul. lia. }
  split; exact Hlen.
Qed.

(** X9.  Every replica gets the same number of batches: two samplers
    constructed from the same data and sizes for two ranks below
    [num_replicas] return batch lists of the same length (with
    [batch_size > 0] and no empty bucket), whatever their epochs and shuffle
    flags. *)
Theorem ranks_same_count (dataset_lengths : list Z) (B : nat) (bnds : list Z)
    (R rk1 rk2 : nat) (sh1 sh2 : bool) (e1 e2 : Z) (s1 s2 : Sampler) :
  __init__ dataset_lengths B bnds R rk1 sh1 = Ok s1 ->
  __init__ dataset_lengths B bnds R rk2 sh2 = Ok s2 ->
  0 < B -> rk1 < R -> rk2 < R ->
  Forall (fun bucket => bucket <> []) (buckets s1) ->
  exists batches1 batches2,
    (iter (set_epoch s1 e1)).1 = Ok batches1
    /\ (iter (set_epoch s2 e2)).1 = Ok batches2
    /\ length batches1 = length batches2.
Proof.
  intros Hinit1 Hinit2 HB Hrk1 Hrk2 Hne.
  pose proof (init_buckets _ _ _ _ _ _ _ Hinit1) as Hb1.
  pose proof (init_buckets _ _ _ _ _ _ _ Hinit2) as Hb2.
  rewrite Hb1 in Hb2. injection Hb2 as Hbk Hcounts _.
  destruct (init_inv _ _ _ _ _ _ _ Hinit1) as (Hinv1 & HB1 & HR1 & Hr1 & _ & _).
  destruct (init_inv _ _ _ _ _ _ _ Hinit2) as (Hinv2 & HB2 & HR2 & Hr2 & _ & _).
  destruct (iter_outcome_Ok Gen manual_seed randperm randperm_perm (set_epoch s1 e1))
    as (all1 & Hall1 & Hcount1 & _); [exact Hinv1 | cbn; lia | cbn; lia | done |].
  destruct (iter_outcome_Ok Gen manual_seed randperm randperm_perm (set_epoch s2 e2))
    as (all2 & Hall2 & Hcount2 & _);
    [exact Hinv2 | cbn; lia | cbn; lia | cbn; by rewrite <- Hbk |].
  cbn [set_epoch batch_size num_replicas num_samples_per_bucket] in Hcount1, Hcount2.
  exists all1, all2. rewrite !iter_fst. split; [done|]. split; [done|].
  rewrite HB1, HR1, Hcounts in Hcount1. rewrite HB2, HR2 in Hcount2. nia.
Qed.
End IterMore.

(** ** [__iter__]: where the indices of a batch come from *)

Lemma mapM_getitem_elem {A : Type} (l : list A) (idxs : list nat) (res : list A) :
  mapM (getitem l) idxs = Ok res -> Forall (fun a => a ∈ l) res.
Proof.
  intros H. apply mapM_Forall2 in H.
  induction H as [|i a idxs res Ha _ IH]; constructor; [| done].
  apply getitem_Ok in Ha. by eapply list_elem_of_lookup_2.
Qed.

(** A loop that returned appended, round by round, what its body appends. *)
Lemma foldM_collect_inv {A X : Type} (f : list X -> A -> result (list X))
    (Q : A -> list X -> Prop) (l : list A) (acc res : list X) :
  (forall acc a res, f acc a = Ok res -> exists new, res = acc ++ new /\ Q a new) ->
  foldM f l acc = Ok res ->
  exists news, res = acc ++ concat news /\ Forall2 Q l news.
Proof.
  intros Hf. revert acc. induction l as [|a l IH]; intros acc H; simpl in H.
  - injection H as <-. exists []. simpl. by rewrite app_nil_r.
  - inv_bind H. destruct (Hf _ _ _ Ha) as (new & -> & HQ).
    destruct (IH _ H) as (news & -> & HQs).
    exists (new :: news). simpl. rewrite app_assoc. split; [done | by constructor].
Qed.

Lemma make_batches_elems (bucket ids : list nat) (B : nat) (acc res : list (list nat)) :
  make_batches bucket ids B acc = Ok res ->
  exists new, res = acc ++ new
              /\ Forall (fun batch => Forall (fun idx => idx ∈ bucket) batch) new.
Proof.
  unfold make_batches. intros H. inv_bind H.
  apply (foldM_collect_inv _
           (fun _ new => Forall (fun batch => Forall (fun idx => idx ∈ bucket) batch) new))
    in H as (news & -> & Hnews).
  - exists (concat news). split; [done|]. apply Forall_concat.
    eapply Forall2_Forall_r; [exact Hnews|]. apply Forall_forall. by intros.
  - intros acc' j res' Hj. inv_bind Hj. injection Hj as <-.
    eexists [_]. split; [done|]. constructor; [| constructor].
    by eapply mapM_getitem_elem.
Qed.

Lemma bucket_step_elems (s : Sampler) (inds acc : list (list nat)) (i : nat)
    (res : list (list nat)) :
  bucket_step s inds acc i = Ok res ->
  exists new bucket,
    buckets s !! i = Some bucket /\ res = acc ++ new
    /\ Forall (fun batch => Forall (fun idx => idx ∈ bucket) batch) new.
Proof.
  unfold bucket_step. intros H.
  inv_bind H. inv_bind H. inv_bind H. inv_bind H. inv_bind H.
  apply make_batches_elems in H as (new & -> & Hnew).
  exists new, a. split; [by apply getitem_Ok | done].
Qed.

Section IterElems.
Context (Gen : Type) (manual_seed : Z -> Gen) (randperm : nat -> Gen -> list nat * Gen).

Local Notation iter := (__iter__ Gen manual_seed randperm).
Local Notation outcome := (iter_outcome Gen manual_seed randperm).

Lemma iter_outcome_elems (s : Sampler) (all_batches : list (list nat)) :
  outcome s = Ok all_batches ->
  Forall (fun batch => exists j bucket,
            buckets s !! j = Some bucket /\ Forall (fun idx => idx ∈ bucket) batch)
    all_batches.
Proof.
  unfold iter_outcome. intros H. inv_bind H.
  assert (a = all_batches) as -> by (destruct (decide _); congruence). clear H.
  inv_bind Ha.
  apply (foldM_collect_inv _
           (fun j new => exists bucket,
                buckets s !! j = Some bucket
                /\ Forall (fun batch => Forall (fun idx => idx ∈ bucket) batch) new))
    in Ha0 as (news & -> & Hnews).
  2: { intros acc j res Hj. apply bucket_step_elems in Hj as (new & bucket & Hb & -> & Hnew).
       exists new. split; [done|]. by exists bucket. }
  assert (Forall (fun batch => exists j bucket,
                    buckets s !! j = Some bucket /\ Forall (fun idx => idx ∈ bucket) batch)
            (concat news)) as Hall.
  { apply Forall_concat. eapply Forall2_Forall_r; [exact Hnews|].
    apply Forall_forall. intros j _ new (bucket & Hb & Hnew).
    eapply Forall_impl; [exact Hnew|]. intros batch Hbatch. by exists j, bucket. }
  cbn [app] in Ha. destruct (shuffle s); [| by injection Ha as <-].
  apply mapM_getitem_elem in Ha. apply Forall_forall. intros batch Hb.
  rewrite Forall_forall in Ha, Hall. auto.
Qed.

(** X10.  No batch mixes buckets: whenever [__iter__] returns, on any
    sampler, every batch of the list takes all its indices from one and the
    same bucket of the sampler. *)
Theorem iter_batches_within_bucket (s : Sampler) (all_batches : list (list nat)) :
  (iter s).1 = Ok all_batches ->
  Forall (fun batch => exists j bucket,
            buckets s !! j = Some bucket /\ Forall (fun idx => idx ∈ bucket) batch)
    all_batches.
Proof. rewrite iter_fst. apply iter_outcome_elems. Qed.

(** X11.  Fidelity of what is emitted.  For a sampler constructed over
    ascending boundaries, every batch that [__iter__] returns has a bucket
    index [j] such that each index of the batch is a position of the dataset's
    length list whose length lies in the interval the sampler's (pruned)
    boundaries give to bucket [j]. *)
Theorem iter_batches_fidelity (dataset_lengths : list Z) (B : nat) (bnds : list Z)
    (R rk : nat) (sh : bool) (e : Z) (s : Sampler) (all_batches : list (list nat)) :
  __init__ dataset_lengths B bnds R rk sh = Ok s ->
  Sorted Z.le bnds -> 1 <= length bnds ->
  (iter (set_epoch s e)).1 = Ok all_batches ->
  Forall (fun batch => exists j,
            Forall (fun idx => exists x, dataset_lengths !! idx = Some x
                                         /\ in_bucket (boundaries s) x j) batch)
    all_batches.
Proof.
  intros Hinit Hs Hlen Hiter. rewrite iter_fst in Hiter.
  apply iter_outcome_elems in Hiter. cbn [set_epoch buckets] in Hiter.
  apply init_buckets in Hinit.
  destruct (create_buckets_inv _ _ _ _ _ _ _ Hinit) as (bks0 & Hinv & Hrtc & _).
  destruct (pop_steps_fit dataset_lengths _ _ Hrtc) as (_ & _ & Hfit).
  { cbn [fst snd]. split; [rewrite (proj1 Hinv); lia|]. split; [done|].
    by apply buckets_upto_fit. }
  eapply Forall_impl; [exact Hiter|]. intros batch (j & bucket & Hb & Hbatch).
  exists j. eapply Forall_impl; [exact Hbatch|]. intros idx Hidx.
  exact (Hfit j bucket idx Hb Hidx).
Qed.

(** X12.  An empty first bucket, the one the pruning never removes, makes
    every iteration fail: on a constructed sampler whose first bucket is
    empty, [__iter__] raises [ZeroDivisionError] for every epoch, with or
    without shuffling, and leaves the sampler as it was ([batches] is not
    assigned). *)
Theorem iter_empty_first_bucket (dataset_lengths : list Z) (B : nat) (bnds : list Z)
    (R rk : nat) (sh : bool) (e : Z) (s : Sampler) :
  __init__ dataset_lengths B bnds R rk sh = Ok s ->
  head (buckets s) = Some [] ->
  iter (set_epoch s e) = (Raise ZeroDivisionError, set_epoch s e).
Proof.
  intros Hinit Hhead.
  destruct (init_inv _ _ _ _ _ _ _ Hinit) as ((Hpad & _) & _).
  unfold __iter__. cbn [set_epoch epoch shuffle buckets].
  destruct (buckets s) as [|b0 rest] eqn:Hbk; [discriminate|].
  injection Hhead as ->. inversion Hpad as [|? p ? counts _ _ Hb Hcounts]; subst.
  assert (forall inds acc, bucket_step (set_epoch s e) inds acc 0 = Raise ZeroDivisionError
                           \/ exists e', bucket_step (set_epoch s e) inds acc 0 = Raise e'
                                         /\ inds = []) as Hstep.
  { intros inds acc. unfold bucket_step. cbn [set_epoch buckets num_samples_per_bucket].
    rewrite Hbk, <- Hcounts. cbn [getitem lookup list_lookup bind length].
    destruct inds as [|ids inds]; [right; by eexists|]. left. reflexivity. }
  cbn [bucket_indices length seq foldM].
  destruct (shuffle s).
  - destruct (randperm 0 (manual_seed e)) as [p0 g0].
    destruct (bucket_indices Gen randperm true rest g0) as [ps g1].
    destruct (Hstep (p0 :: ps) []) as [-> | (e' & _ & Hnil)]; [done | discriminate].
  - destruct (bucket_indices Gen randperm false rest (manual_seed e)) as [ps g1].
    destruct (Hstep ([] :: ps) []) as [-> | (e' & _ & Hnil)]; [done | discriminate].
Qed.
End IterElems.

Lemma len_counts_batches_witness :
  exists all_batches,
    (__iter__ nat flip_seed flip_randperm (set_epoch (demo_sampler true) 3)).1
    = Ok all_batches
    /\ __len__ (set_epoch (demo_sampler true) 3) = Ok (length all_batches)
    /\ __len__ (demo_sampler true) = Ok (length all_batches).
Proof.
  apply (len_counts_batches nat flip_seed flip_randperm flip_randperm_perm
           [15; 12; 18; 5; 25; 31; 0; 7; 8]%Z 2 [0; 10; 20; 30]%Z 2 1 true 3
           (demo_sampler true));
    [vm_compute; reflexivity | lia | lia | repeat constructor; discriminate].
Defined.

Lemma ranks_same_count_witness :
  exists batches1 batches2,
    (__iter__ nat flip_seed flip_randperm (set_epoch (demo_sampler true) 3)).1 = Ok batches1
    /\ (__iter__ nat flip_seed flip_randperm
          (set_epoch {| lengths := [15; 12; 18; 5; 25; 31; 0; 7; 8]%Z;
                        batch_size := 2;
                        boundaries := [0; 10; 20; 30]%Z;
                        num_replicas := 2;
                        rank := 0;
                        shuffle := false;
                        epoch := 0%Z;
                        buckets := [[3; 7; 8]; [0; 1; 2]; [4]];
                        num_samples_per_bucket := [4; 4; 4];
                        total_size := 12;
                        num_samples := 6;
                        batches := None |} 5)).1 = Ok batches2
    /\ length batches1 = length batches2.
Proof.
  apply (ranks_same_count nat flip_seed flip_randperm flip_randperm_perm
           [15; 12; 18; 5; 25; 31; 0; 7; 8]%Z 2 [0; 10; 20; 30]%Z 2 1 0 true false 3 5);
    [vm_compute; reflexivity | vm_compute; reflexivity | lia | lia | lia
    | repeat constructor; discriminate].
Defined.

Lemma iter_batches_within_bucket_witness :
  Forall (fun batch => exists j bucket,
            buckets (set_epoch (demo_sampler true) 3) !! j = Some bucket
            /\ Forall (fun idx => idx ∈ bucket) batch)
    [[7; 8]; [1; 0]; [4; 4]].
Proof.
  apply (iter_batches_within_bucket nat flip_seed flip_randperm
           (set_epoch (demo_sampler true) 3) [[7; 8]; [1; 0]; [4; 4]]).
  vm_compute. reflexivity.
Defined.

Lemma iter_batches_fidelity_witness :
  Forall (fun batch => exists j,
            Forall (fun idx => exists x,
                        [15; 12; 18; 5; 25; 31; 0; 7; 8]%Z !! idx = Some x
                        /\ in_bucket (boundaries (demo_sampler true)) x j) batch)
    [[7; 8]; [1; 0]; [4; 4]].
Proof.
  apply (iter_batches_fidelity nat flip_seed flip_randperm
           [15; 12; 18; 5; 25; 31; 0; 7; 8]%Z 2 [0; 10; 20; 30]%Z 2 1 true 3
           (demo_sampler true) [[7; 8]; [1; 0]; [4; 4]]);
    [vm_compute; reflexivity | repeat constructor; lia | simpl; lia
    | vm_compute; reflexivity].
Defined.

Lemma iter_empty_first_bucket_witness :
  __iter__ nat flip_seed flip_randperm (set_epoch (gap_sampler true) 7)
  = (Raise ZeroDivisionError, set_epoch (gap_sampler true) 7).
Proof.
  apply (iter_empty_first_bucket nat flip_seed flip_randperm
           [15; 12; 18]%Z 1 [0; 10; 20; 30]%Z 1 0 true 7 (gap_sampler true));
    [vm_compute; reflexivity | reflexivity].
Defined.

(** ** [__iter__]: every sample of a bucket is emitted on some rank *)

Lemma concat_singletons_Forall2 {A X : Type} (P : A -> X -> Prop) (l : list A)
    (news : list (list X)) :
  Forall2 (fun a new => exists x, new = [x] /\ P a x) l news -> Forall2 P l (concat news).
Proof.
  induction 1 as [|a new l news (x & -> & Hx) _ IH]; simpl; [constructor|].
  by constructor.
Qed.

(** The batches a bucket contributes, one per chunk of the rank's slice. *)
Lemma make_batches_inv (bucket ids : list nat) (B : nat) (acc res : list (list nat)) :
  make_batches bucket ids B acc = Ok res ->
  exists new, res = acc ++ new
              /\ Forall2 (fun j batch =>
                            mapM (getitem bucket) (slice ids (j * B) ((j + 1) * B)) = Ok batch)
                   (seq 0 (length ids / B)) new.
Proof.
  unfold make_batches, py_floordiv. intros H.
  destruct (decide (B = 0)); [discriminate|]. cbn [bind] in H.
  apply (foldM_collect_inv _
           (fun j new => exists batch,
                new = [batch]
                /\ mapM (getitem bucket) (slice ids (j * B) ((j + 1) * B)) = Ok batch))
    in H as (news & -> & Hnews).
  - exists (concat news). split; [done|]. by apply concat_singletons_Forall2.
  - intros acc' j res' Hj. inv_bind Hj. injection Hj as <-.
    eexists [_]. split; [done|]. eexists. split; [done | exact Ha].
Qed.

(** A sample of the bucket whose place in the index list falls to the
    sampler's rank is in one of the batches the bucket contributes. *)
Lemma bucket_step_covers (s : Sampler) (inds acc res : list (list nat)) (i : nat)
    (bucket ids : list nat) (p q t idx : nat) :
  0 < batch_size s -> rank s < num_replicas s ->
  buckets s !! i = Some bucket -> inds !! i = Some ids ->
  length ids = length bucket ->
  num_samples_per_bucket s !! i = Some p ->
  padded_count (num_replicas s) (batch_size s) (length bucket) = Ok p ->
  ids !! q = Some t -> bucket !! t = Some idx -> q mod num_replicas s = rank s ->
  bucket_step s inds acc i = Ok res ->
  exists new batch, res = acc ++ new /\ batch ∈ new /\ idx ∈ batch.
Proof.
  intros HB Hrk Hbucket Hids Hlen Hp Hpad Hq Ht Hqr H. unfold bucket_step in H.
  apply getitem_Ok in Hbucket, Hids, Hp. rewrite Hbucket, Hids, Hp in H. cbn [bind] in H.
  destruct (padded_count_multiple _ _ _ _ Hpad) as (Hle & k & Hk).
  pose proof (lookup_lt_Some _ _ _ Hq) as HqL.
  assert (ids <> []) as Hidsne by (destruct ids; [simpl in HqL; lia | done]).
  destruct (extend_ids_Ok ids (p - length bucket) Hidsne) as (ext & Hext & Hl & Hlook).
  rewrite Hlen in Hext, Hl, Hlook, HqL. rewrite Hext in H. cbn [bind] in H.
  assert (length ext = p) as Hl' by lia.
  destruct (slice_step_Ok ext (rank s) (num_replicas s) ltac:(lia)) as (sl & Hsl & Hall).
  rewrite Hsl in H. cbn [bind] in H.
  assert (length sl = k * batch_size s) as Hsllen.
  { rewrite <- (Forall2_length _ _ _ Hall), py_range_length, Hl', Hk.
    by apply rank_slice_count. }
  (* the place of [t] in the slice of the rank *)
  assert (ext !! q = Some t) as Hextq.
  { rewrite Hlook by lia. by rewrite Nat.mod_small. }
  assert (q ∈ py_range (rank s) (length ext) (num_replicas s)) as Hqin.
  { apply py_range_rank; [done|]. split; [lia | done]. }
  apply list_elem_of_lookup in Hqin as [m Hm].
  destruct (Forall2_lookup_l _ _ _ _ _ Hall Hm) as (t' & Hslm & Ht').
  rewrite Hextq in Ht'. injection Ht' as <-.
  pose proof (lookup_lt_Some _ _ _ Hslm) as Hmlt.
  (* the batch that takes it *)
  apply make_batches_inv in H as (new & -> & Hnew).
  rewrite Hsllen, Nat.div_mul in Hnew by lia.
  assert (m / batch_size s < k) as Hjk.
  { apply Nat.Div0.div_lt_upper_bound. lia. }
  destruct (Forall2_lookup_l _ _ _ _ _ Hnew (lookup_seq_lt 0 k _ Hjk))
    as (batch & Hbatch & Hmap).
  cbn [Nat.add] in Hmap. apply mapM_Forall2 in Hmap.
  pose proof (Nat.div_mod_eq m (batch_size s)) as Hdm.
  pose proof (Nat.mod_upper_bound m (batch_size s) ltac:(lia)) as Hmod.
  assert (slice sl (m / batch_size s * batch_size s) ((m / batch_size s + 1) * batch_size s)
          !! (m mod batch_size s) = Some t) as Hslice.
  { unfold slice. rewrite lookup_take_lt by lia. rewrite lookup_drop.
    rewrite <- Hslm. f_equal. lia. }
  destruct (Forall2_lookup_l _ _ _ _ _ Hmap Hslice) as (a & Ha & Hget).
  apply getitem_Ok in Hget. rewrite Ht in Hget. injection Hget as <-.
  exists new, batch. split; [done|].
  split; by eapply list_elem_of_lookup_2.
Qed.

Lemma init_other_rank (dataset_lengths : list Z) (B : nat) (bnds : list Z) (R rk rk' : nat)
    (sh : bool) (s : Sampler) :
  __init__ dataset_lengths B bnds R rk sh = Ok s ->
  exists s', __init__ dataset_lengths B bnds R rk' sh = Ok s'
             /\ rank s' = rk' /\ buckets s' = buckets s.
Proof.
  unfold __init__. intros H. inv_bind H. destruct a as [[bks counts] bnds'].
  inv_bind H. injection H as <-. rewrite Ha. cbn [bind]. rewrite Ha0. cbn [bind].
  eexists. split; [reflexivity|]. done.
Qed.

Section IterCover.
Context (Gen : Type) (manual_seed : Z -> Gen) (randperm : nat -> Gen -> list nat * Gen).
Hypothesis randperm_perm : forall n g, (randperm n g).1 ≡ₚ seq 0 n.

Local Notation iter := (__iter__ Gen manual_seed randperm).
Local Notation indices_of := (bucket_indices Gen randperm).
Local Notation outcome := (iter_outcome Gen manual_seed randperm).

Lemma iter_outcome_covers (s : Sampler) (j : nat) (bucket ids : list nat) (q t idx : nat)
    (all_batches : list (list nat)) :
  sampler_inv s -> 0 < batch_size s -> rank s < num_replicas s ->
  buckets s !! j = Some bucket ->
  (indices_of (shuffle s) (buckets s) (manual_seed (epoch s))).1 !! j = Some ids ->
  ids !! q = Some t -> bucket !! t = Some idx -> q mod num_replicas s = rank s ->
  outcome s = Ok all_batches ->
  exists batch, batch ∈ all_batches /\ idx ∈ batch.
Proof.
  intros (Hpad & _) HB Hrk Hbucket Hids Hq Ht Hqr H. unfold iter_outcome in H.
  pose proof (bucket_indices_perm Gen randperm randperm_perm
                (shuffle s) (buckets s) (manual_seed (epoch s))) as Hinds.
  destruct (indices_of (shuffle s) (buckets s) (manual_seed (epoch s))) as [inds g].
  cbn [fst snd] in *.
  inv_bind H. assert (a = all_batches) as -> by (destruct (decide _); congruence).
  clear H. inv_bind Ha.
  assert (exists batch, batch ∈ a /\ idx ∈ batch) as (batch & Hbatch & Hidx).
  { apply (foldM_collect_inv _
             (fun i new => exists acc, bucket_step s inds acc i = Ok (acc ++ new)))
      in Ha0 as (news & -> & Hnews).
    2: { intros acc i res Hi. pose proof Hi as Hi'.
         apply bucket_step_elems in Hi' as (new & _ & _ & -> & _).
         exists new. split; [done|]. by exists acc. }
    pose proof (lookup_lt_Some _ _ _ Hbucket) as Hjlt.
    destruct (Forall2_lookup_l _ _ _ _ _ Hnews (lookup_seq_lt 0 _ _ Hjlt))
      as (new & Hnew & acc & Hstep).
    destruct (Forall2_lookup_l _ _ _ _ _ Hpad Hbucket) as (p & Hp & Hpc).
    destruct (Forall2_lookup_l _ _ _ _ _ Hinds Hbucket) as (ids' & Hids' & Hperm).
    rewrite Hids in Hids'. injection Hids' as <-.
    destruct (bucket_step_covers s inds acc _ j bucket ids p q t idx HB Hrk Hbucket Hids
                ltac:(by rewrite (Permutation_length Hperm), length_seq)
                Hp Hpc Hq Ht Hqr Hstep) as (new' & batch & Heq & Hb & Hi).
    apply app_inv_head in Heq. subst new'.
    exists batch. split; [| done]. cbn [app]. apply elem_of_concat.
    cbn [Nat.add] in Hnew. by exists j, new. }
  cbn [app] in Ha. destruct (shuffle s); [| injection Ha as <-; by exists batch].
  pose proof (randperm_perm (length a) g) as Hperm.
  destruct (randperm (length a) g) as [batch_ids g']. cbn [fst] in *.
  apply mapM_Forall2 in Ha.
  apply list_elem_of_lookup in Hbatch as [u Hu].
  assert (u ∈ batch_ids) as Hin.
  { rewrite Hperm. apply elem_of_seq. apply lookup_lt_Some in Hu. lia. }
  apply list_elem_of_lookup in Hin as [v Hv].
  destruct (Forall2_lookup_l _ _ _ _ _ Ha Hv) as (b & Hb & Hget).
  apply getitem_Ok in Hget. rewrite Hu in Hget. injection Hget as <-.
  exists batch. split; [by eapply list_elem_of_lookup_2 | done].
Qed.

(** X13.  Nothing in a bucket is left out of an epoch.  For a sampler
    constructed with [batch_size > 0] and no empty bucket, every sample index
    of every bucket is emitted in the epoch by some replica: there is a rank
    below [num_replicas] whose sampler (same data, sizes, shuffle flag and
    epoch) returns a batch list with a batch that holds the index. *)
Theorem epoch_covers_buckets (dataset_lengths : list Z) (B : nat) (bnds : list Z)
    (R rk0 : nat) (sh : bool) (e : Z) (s0 : Sampler) (idx : nat) :
  __init__ dataset_lengths B bnds R rk0 sh = Ok s0 ->
  0 < B ->
  Forall (fun bucket => bucket <> []) (buckets s0) ->
  idx ∈ concat (buckets s0) ->
  exists rk s all_batches batch,
    rk < R
    /\ __init__ dataset_lengths B bnds R rk sh = Ok s
    /\ (iter (set_epoch s e)).1 = Ok all_batches
    /\ batch ∈ all_batches /\ idx ∈ batch.
Proof.
  intros Hinit0 HB Hne Hidx.
  destruct (init_inv _ _ _ _ _ _ _ Hinit0) as ((_ & _ & HR0 & _) & _ & HR & _).
  apply elem_of_concat in Hidx as (j & bucket & Hbucket & Hidx).
  apply list_elem_of_lookup in Hidx as [t Ht].
  pose proof (bucket_indices_perm Gen randperm randperm_perm
                sh (buckets s0) (manual_seed e)) as Hinds.
  destruct (Forall2_lookup_l _ _ _ _ _ Hinds Hbucket) as (ids & Hids & Hperm).
  assert (t ∈ ids) as Hin.
  { rewrite Hperm. apply elem_of_seq. apply lookup_lt_Some in Ht. lia. }
  apply list_elem_of_lookup in Hin as [q Hq].
  destruct (init_other_rank _ _ _ _ rk0 (q mod R) _ _ Hinit0) as (s & Hinit & Hrank & Hbk).
  assert (q mod R < R) as Hlt by (apply Nat.mod_upper_bound; lia).
  destruct (init_inv _ _ _ _ _ _ _ Hinit) as (Hinv & HBs & HRs & _ & Hsh & _).
  destruct (iter_outcome_Ok Gen manual_seed randperm randperm_perm (set_epoch s e))
    as (all & Hall & _); [exact Hinv | cbn; lia | cbn; lia | cbn; by rewrite Hbk |].
  destruct (iter_outcome_covers (set_epoch s e) j bucket ids q t idx all)
    as (batch & Hb & Hi); cbn [set_epoch batch_size rank num_replicas buckets shuffle epoch];
    try done; try lia.
  - by rewrite Hbk.
  - by rewrite Hbk, Hsh.
  - by rewrite HRs, Hrank.
  - exists (q mod R), s, all, batch. rewrite iter_fst. done.
Qed.
End IterCover.

Lemma epoch_covers_buckets_witness :
  exists rk s all_batches batch,
    rk < 2
    /\ __init__ [15; 12; 18; 5; 25; 31; 0; 7; 8]%Z 2 [0; 10; 20; 30]%Z 2 rk true = Ok s
    /\ (__iter__ nat flip_seed flip_randperm (set_epoch s 3)).1 = Ok all_batches
    /\ batch ∈ all_batches /\ 3 ∈ batch.
Proof.
  apply (epoch_covers_buckets nat flip_seed flip_randperm flip_randperm_perm
           [15; 12; 18; 5; 25; 31; 0; 7; 8]%Z 2 [0; 10; 20; 30]%Z 2 1 true 3
           (demo_sampler true) 3);
    [vm_compute; reflexivity | lia | repeat constructor; discriminate
    | simpl; rewrite !elem_of_cons; auto].
Defined.

(** ** [get_audio_text_pair]: what every fetched sample satisfies *)

Section FetchMore.
Context {F : Type}.

(** X14.  The fetch raises [AssertionError] exactly when text and tone
    differ in length.  Whenever it returns, the sample has text, tone and
    spec of one and the same length, and fetching from the fields it returned
    gives the same sample again (the reconciliation is idempotent). *)
Theorem fetch_aligned (text_in tone_in : list Z) (f0_in : list F) (spec_in wav_in : Tensor2 F) :
  (length text_in <> length tone_in <->
   get_audio_text_pair text_in tone_in f0_in spec_in wav_in = Raise AssertionError)
  /\ forall x,
       get_audio_text_pair text_in tone_in f0_in spec_in wav_in = Ok x ->
       length (text x) = length (tone x)
       /\ length (text x) = size1 (spec x)
       /\ get_audio_text_pair (text x) (tone x) (f0 x) (spec x) (wav x) = Ok x.
Proof.
  unfold get_audio_text_pair. split.
  - destruct (decide (length text_in = length tone_in)) as [Heq|Hne].
    + split; [done|]. destruct (decide (length text_in <> size1 spec_in)); discriminate.
    + done.
  - intros x. destruct (decide (length text_in = length tone_in)) as [Heq|]; [| discriminate].
    destruct (decide (length text_in <> size1 spec_in)) as [Hne|Hsame]; intros [= <-];
      cbn [text tone spec f0 wav cols_to size1]; unfold slice_to; rewrite ?length_take.
    + split; [lia|]. split; [lia|].
      rewrite decide_True by lia. rewrite decide_False by lia. reflexivity.
    + assert (length text_in = size1 spec_in) as Hsame' by lia.
      split; [done|]. split; [done|].
      rewrite decide_True by done. rewrite decide_False by lia. reflexivity.
Qed.
End FetchMore.

Lemma fetch_aligned_witness :
  (length [1; 2; 3]%Z <> length [4; 5; 6]%Z <->
   get_audio_text_pair [1; 2; 3]%Z [4; 5; 6]%Z [7; 8; 9]
     {| size0 := 1; size1 := 2; rows := [[1; 2]] |}
     {| size0 := 1; size1 := 600; rows := [replicate 600 5] |} = Raise AssertionError)
  /\ forall x : Sample nat,
       get_audio_text_pair [1; 2; 3]%Z [4; 5; 6]%Z [7; 8; 9]
         {| size0 := 1; size1 := 2; rows := [[1; 2]] |}
         {| size0 := 1; size1 := 600; rows := [replicate 600 5] |} = Ok x ->
       length (text x) = length (tone x)
       /\ length (text x) = size1 (spec x)
       /\ get_audio_text_pair (text x) (tone x) (f0 x) (spec x) (wav x) = Ok x.
Proof.
  exact (fetch_aligned [1; 2; 3]%Z [4; 5; 6]%Z [7; 8; 9]
           {| size0 := 1; size1 := 2; rows := [[1; 2]] |}
           {| size0 := 1; size1 := 600; rows := [replicate 600 5] |}).
Defined.

(** ** The collator: rows, shapes and padding of the output *)

Lemma sorted_perm_batch {A : Type} (batch sorted : list A) (ids : list nat) :
  Forall2 (fun id x => batch !! id = Some x) ids sorted ->
  ids ≡ₚ seq 0 (length batch) -> sorted ≡ₚ batch.
Proof.
  intros Hsorted Hperm. destruct batch as [|d batch'] eqn:Hbatch.
  - apply Permutation_nil_r in Hperm. subst ids. by inversion Hsorted.
  - rewrite <- Hbatch in *. clear Hbatch.
    set (f := fun id => default d (batch !! id)).
    assert (sorted = f <$> ids) as ->.
    { clear Hperm. induction Hsorted as [|id x ids sorted Hx _ IH]; [done|].
      rewrite fmap_cons. f_equal; [| exact IH]. unfold f. by rewrite Hx. }
    assert (batch = f <$> seq 0 (length batch)) as Hb.
    { apply list_eq. intros i. rewrite list_lookup_fmap.
      destruct (decide (i < length batch)) as [Hi|Hi].
      - rewrite lookup_seq_lt by done. simpl. unfold f.
        destruct (lookup_lt_is_Some_2 batch i Hi) as [x ->]. done.
      - rewrite lookup_seq_ge by lia. simpl. apply lookup_ge_None. lia. }
    rewrite Hb at 1. by apply fmap_Permutation.
Qed.

Lemma pad_to_length {A : Type} (zero : A) (n : nat) (l : list A) :
  length l <= n -> length (pad_to zero n l) = n.
Proof. intros Hle. unfold pad_to. rewrite length_app, length_replicate. lia. Qed.

Lemma pad_to_lookup_zero {A : Type} (zero : A) (n : nat) (l : list A) (c : nat) :
  length l <= c < n -> pad_to zero n l !! c = Some zero.
Proof.
  intros Hc. unfold pad_to. rewrite lookup_app_r by lia.
  apply lookup_replicate_2. lia.
Qed.

Lemma pad_to_take {A : Type} (zero : A) (n : nat) (l : list A) :
  take (length l) (pad_to zero n l) = l.
Proof. unfold pad_to. by rewrite take_app_length. Qed.

Section CollateMore.
Context {F : Type} (fzero : F) (sort_descending : list nat -> list nat).
Hypothesis sort_perm : forall values, sort_descending values ≡ₚ seq 0 (length values).

(** The output, for a batch that meets the collator's expectations. *)
Lemma call_collated (return_ids : bool) (batch : list (Sample F)) (first : Sample F) :
  head batch = Some first ->
  Forall (sample_ok (size0 (spec first))) batch ->
  let ids := sort_descending (map (fun x => size1 (spec x)) batch) in
  exists sorted,
    Forall2 (fun id x => batch !! id = Some x) ids sorted
    /\ sorted ≡ₚ batch
    /\ __call__ fzero sort_descending return_ids batch
       = Ok (collated fzero (size0 (spec first)) batch sorted,
             if return_ids then Some ids else None).
Proof.
  intros Hfirst Hok ids.
  assert (ids ≡ₚ seq 0 (length batch)) as Hperm.
  { subst ids. by rewrite sort_perm, length_map. }
  destruct (sorted_exists batch ids Hperm) as [sorted Hsorted].
  assert (length ids = length batch) as Hlen
    by (by rewrite (Permutation_length Hperm), length_seq).
  exists sorted. split; [done|]. split; [by eapply sorted_perm_batch|].
  rewrite (call_unfold fzero sort_descending _ _ first Hfirst). cbv zeta. fold ids.
  rewrite <- (buffers_at_0 fzero (size0 (spec first)) batch sorted).
  rewrite Hlen, (collate_loop fzero _ batch sorted ids Hok Hsorted Hlen) by lia.
  cbn [bind]. by rewrite (buffers_at_end fzero _ batch sorted ids Hsorted).
Qed.

(** X15.  The collator neither drops nor repeats a sample: for a non-empty
    batch that meets its expectations, the five length vectors of the output
    are permutations of the true lengths of the batch, and the padded rows are
    the padded samples of the batch, each once. *)
Theorem collate_permutes (return_ids : bool) (batch : list (Sample F)) (first : Sample F) :
  head batch = Some first ->
  Forall (sample_ok (size0 (spec first))) batch ->
  exists out ids,
    __call__ fzero sort_descending return_ids batch = Ok (out, ids)
    /\ text_lengths out ≡ₚ map (fun x => Some (length (text x))) batch
    /\ tone_lengths out ≡ₚ map (fun x => Some (length (tone x))) batch
    /\ f0_lengths out ≡ₚ map (fun x => Some (length (f0 x))) batch
    /\ spec_lengths out ≡ₚ map (fun x => Some (size1 (spec x))) batch
    /\ wav_lengths out ≡ₚ map (fun x => Some (size1 (wav x))) batch
    /\ text_padded out
       ≡ₚ map (fun x => pad_to 0%Z (field_max (fun x => length (text x)) batch) (text x)) batch
    /\ spec_padded out
       ≡ₚ map (fun x => pad_tensor fzero (size0 (spec first))
                          (field_max (fun x => size1 (spec x)) batch) (spec x)) batch.
Proof.
  intros Hfirst Hok.
  destruct (call_collated return_ids batch first Hfirst Hok) as (sorted & _ & Hperm & ->).
  eexists _, _. split; [reflexivity|].
  cbn [collated text_lengths tone_lengths f0_lengths spec_lengths wav_lengths
       text_padded spec_padded].
  repeat split; by apply fmap_Permutation.
Qed.

(** X16.  The output is dense: every one of the ten buffers has one row per
    sample; every padded text, tone and f0 row has the width of the longest
    one in the batch; every spec plane is a well-formed tensor of
    [feature_dim] rows and as many columns as the longest spectrogram, every
    wav plane a well-formed tensor of one row and as many columns as the
    longest waveform. *)
Theorem collate_shapes (return_ids : bool) (batch : list (Sample F)) (first : Sample F) :
  head batch = Some first ->
  Forall (sample_ok (size0 (spec first))) batch ->
  exists out ids,
    __call__ fzero sort_descending return_ids batch = Ok (out, ids)
    /\ (length (text_padded out) = length batch /\ length (text_lengths out) = length batch
        /\ length (tone_padded out) = length batch /\ length (tone_lengths out) = length batch
        /\ length (f0_padded out) = length batch /\ length (f0_lengths out) = length batch
        /\ length (spec_padded out) = length batch /\ length (spec_lengths out) = length batch
        /\ length (wav_padded out) = length batch /\ length (wav_lengths out) = length batch)
    /\ Forall (fun row => length row = field_max (fun x => length (text x)) batch)
         (text_padded out)
    /\ Forall (fun row => length row = field_max (fun x => length (tone x)) batch)
         (tone_padded out)
    /\ Forall (fun row => length row = field_max (fun x => length (f0 x)) batch)
         (f0_padded out)
    /\ Forall (fun t => tensor2_wf t /\ size0 t = size0 (spec first)
                        /\ size1 t = field_max (fun x => size1 (spec x)) batch)
         (spec_padded out)
    /\ Forall (fun t => tensor2_wf t /\ size0 t = 1
                        /\ size1 t = field_max (fun x => size1 (wav x)) batch)
         (wav_padded out).
Proof.
  intros Hfirst Hok.
  destruct (call_collated return_ids batch first Hfirst Hok) as (sorted & _ & Hperm & ->).
  eexists _, _. split; [reflexivity|].
  cbn [collated text_lengths tone_lengths f0_lengths spec_lengths wav_lengths
       text_padded tone_padded f0_padded spec_padded wav_padded].
  pose proof (Permutation_length Hperm) as Hlen.
  assert (Forall (fun x => x ∈ batch /\ sample_ok (size0 (spec first)) x) sorted) as Hs.
  { apply Forall_forall. intros x Hx. rewrite Hperm in Hx. split; [done|].
    by apply (proj1 (Forall_forall _ _) Hok). }
  split; [rewrite !length_map; by repeat split|].
  repeat split; apply Forall_fmap; (eapply Forall_impl; [exact Hs|]);
    intros x [Hin (Hspec & Hwav & Hd & Hc)]; cbn [pad_tensor size0 size1 rows].
  - apply pad_to_length. by apply (field_max_le (fun x => length (text x))).
  - apply pad_to_length. by apply (field_max_le (fun x => length (tone x))).
  - apply pad_to_length. by apply (field_max_le (fun x => length (f0 x))).
  - split; [split|]; cbn [pad_tensor size0 size1 rows].
    + rewrite length_map. destruct Hspec as [-> _]. done.
    + apply Forall_fmap. eapply Forall_impl; [exact (proj2 Hspec)|].
      intros r Hr. simpl in *. apply pad_to_length. rewrite Hr.
      by apply (field_max_le (fun x => size1 (spec x))).
    + done.
  - split; [split|]; cbn [pad_tensor size0 size1 rows].
    + rewrite length_map. destruct Hwav as [-> _]. done.
    + apply Forall_fmap. eapply Forall_impl; [exact (proj2 Hwav)|].
      intros r Hr. simpl in *. apply pad_to_length. rewrite Hr.
      by apply (field_max_le (fun x => size1 (wav x))).
    + done.
Qed.

(** X17.  Padding is zero and nothing else is touched.  In the output of
    the collator, the length recorded for row [i] of a field is at most the
    width of the row, the row is zero at every column from that length on, and
    for the spec and wav planes the same holds in every row of the plane. *)
Theorem collate_zero_beyond_length (return_ids : bool) (batch : list (Sample F))
    (first : Sample F) :
  head batch = Some first ->
  Forall (sample_ok (size0 (spec first))) batch ->
  exists out ids,
    __call__ fzero sort_descending return_ids batch = Ok (out, ids)
    /\ (forall i row n c,
          text_padded out !! i = Some row -> text_lengths out !! i = Some (Some n) ->
          n <= length row /\ (n <= c < length row -> row !! c = Some 0%Z))
    /\ (forall i row n c,
          tone_padded out !! i = Some row -> tone_lengths out !! i = Some (Some n) ->
          n <= length row /\ (n <= c < length row -> row !! c = Some 0%Z))
    /\ (forall i row n c,
          f0_padded out !! i = Some row -> f0_lengths out !! i = Some (Some n) ->
          n <= length row /\ (n <= c < length row -> row !! c = Some fzero))
    /\ (forall i plane n r c,
          spec_padded out !! i = Some plane -> spec_lengths out !! i = Some (Some n) ->
          r ∈ rows plane ->
          n <= size1 plane /\ (n <= c < size1 plane -> r !! c = Some fzero))
    /\ (forall i plane n r c,
          wav_padded out !! i = Some plane -> wav_lengths out !! i = Some (Some n) ->
          r ∈ rows plane ->
          n <= size1 plane /\ (n <= c < size1 plane -> r !! c = Some fzero)).
Proof.
  intros Hfirst Hok.
  destruct (call_collated return_ids batch first Hfirst Hok) as (sorted & _ & Hperm & ->).
  eexists _, _. split; [reflexivity|].
  cbn [collated text_lengths tone_lengths f0_lengths spec_lengths wav_lengths
       text_padded tone_padded f0_padded spec_padded wav_padded].
  assert (forall i x, sorted !! i = Some x ->
                      x ∈ batch /\ sample_ok (size0 (spec first)) x) as Hs.
  { intros i x Hx. apply list_elem_of_lookup_2 in Hx. rewrite Hperm in Hx.
    split; [done|]. by apply (proj1 (Forall_forall _ _) Hok). }
  split; [| split; [| split; [| split]]].
  - intros i row n c Hrow Hn. rewrite list_lookup_fmap in Hrow. rewrite list_lookup_fmap in Hn.
    destruct (sorted !! i) as [x|] eqn:Hx; [| discriminate].
    injection Hrow as <-. injection Hn as <-.
    destruct (Hs i x Hx) as [Hin _].
    pose proof (field_max_le (fun x => length (text x)) batch x Hin) as Hle.
    rewrite pad_to_length by done. split; [done|]. apply pad_to_lookup_zero.
  - intros i row n c Hrow Hn. rewrite list_lookup_fmap in Hrow. rewrite list_lookup_fmap in Hn.
    destruct (sorted !! i) as [x|] eqn:Hx; [| discriminate].
    injection Hrow as <-. injection Hn as <-.
    destruct (Hs i x Hx) as [Hin _].
    pose proof (field_max_le (fun x => length (tone x)) batch x Hin) as Hle.
    rewrite pad_to_length by done. split; [done|]. apply pad_to_lookup_zero.
  - intros i row n c Hrow Hn. rewrite list_lookup_fmap in Hrow. rewrite list_lookup_fmap in Hn.
    destruct (sorted !! i) as [x|] eqn:Hx; [| discriminate].
    injection Hrow as <-. injection Hn as <-.
    destruct (Hs i x Hx) as [Hin _].
    pose proof (field_max_le (fun x => length (f0 x)) batch x Hin) as Hle.
    rewrite pad_to_length by done. split; [done|]. apply pad_to_lookup_zero.
  - intros i plane n r c Hplane Hn Hr. rewrite list_lookup_fmap in Hplane. rewrite list_lookup_fmap in Hn.
    destruct (sorted !! i) as [x|] eqn:Hx; [| discriminate].
    injection Hplane as <-. injection Hn as <-.
    destruct (Hs i x Hx) as [Hin (Hspec & _)].
    pose proof (field_max_le (fun x => size1 (spec x)) batch x Hin) as Hle.
    cbn [pad_tensor size1 rows] in *. split; [done|].
    apply list_elem_of_fmap in Hr as (r0 & -> & Hr0). intros Hc.
    apply pad_to_lookup_zero.
    by rewrite (proj1 (Forall_forall _ _) (proj2 Hspec) r0 Hr0).
  - intros i plane n r c Hplane Hn Hr. rewrite list_lookup_fmap in Hplane. rewrite list_lookup_fmap in Hn.
    destruct (sorted !! i) as [x|] eqn:Hx; [| discriminate].
    injection Hplane as <-. injection Hn as <-.
    destruct (Hs i x Hx) as [Hin (_ & Hwav & _)].
    pose proof (field_max_le (fun x => size1 (wav x)) batch x Hin) as Hle.
    cbn [pad_tensor size1 rows] in *. split; [done|].
    apply list_elem_of_fmap in Hr as (r0 & -> & Hr0). intros Hc.
    apply pad_to_lookup_zero.
    by rewrite (proj1 (Forall_forall _ _) (proj2 Hwav) r0 Hr0).
Qed.
End CollateMore.

Lemma collate_permutes_witness :
  exists out ids,
    __call__ 0 argsort_desc true demo_batch = Ok (out, ids)
    /\ text_lengths out ≡ₚ map (fun x => Some (length (text x))) demo_batch
    /\ tone_lengths out ≡ₚ map (fun x => Some (length (tone x))) demo_batch
    /\ f0_lengths out ≡ₚ map (fun x => Some (length (f0 x))) demo_batch
    /\ spec_lengths out ≡ₚ map (fun x => Some (size1 (spec x))) demo_batch
    /\ wav_lengths out ≡ₚ map (fun x => Some (size1 (wav x))) demo_batch
    /\ text_padded out
       ≡ₚ map (fun x => pad_to 0%Z (field_max (fun x => length (text x)) demo_batch) (text x))
            demo_batch
    /\ spec_padded out
       ≡ₚ map (fun x => pad_tensor 0 (size0 (spec (demo_sample 5)))
                          (field_max (fun x => size1 (spec x)) demo_batch) (spec x))
            demo_batch.
Proof.
  apply (collate_permutes 0 argsort_desc argsort_desc_perm true demo_batch (demo_sample 5));
    [reflexivity | repeat constructor].
Defined.

Lemma collate_shapes_witness :
  exists out ids,
    __call__ 0 argsort_desc false demo_batch = Ok (out, ids)
    /\ (length (text_padded out) = length demo_batch
        /\ length (text_lengths out) = length demo_batch
        /\ length (tone_padded out) = length demo_batch
        /\ length (tone_lengths out) = length demo_batch
        /\ length (f0_padded out) = length demo_batch
        /\ length (f0_lengths out) = length demo_batch
        /\ length (spec_padded out) = length demo_batch
        /\ length (spec_lengths out) = length demo_batch
        /\ length (wav_padded out) = length demo_batch
        /\ length (wav_lengths out) = length demo_batch)
    /\ Forall (fun row => length row = field_max (fun x => length (text x)) demo_batch)
         (text_padded out)
    /\ Forall (fun row => length row = field_max (fun x => length (tone x)) demo_batch)
         (tone_padded out)
    /\ Forall (fun row => length row = field_max (fun x => length (f0 x)) demo_batch)
         (f0_padded out)
    /\ Forall (fun t => tensor2_wf t /\ size0 t = size0 (spec (demo_sample 5))
                        /\ size1 t = field_max (fun x => size1 (spec x)) demo_batch)
         (spec_padded out)
    /\ Forall (fun t => tensor2_wf t /\ size0 t = 1
                        /\ size1 t = field_max (fun x => size1 (wav x)) demo_batch)
         (wav_padded out).
Proof.
  apply (collate_shapes 0 argsort_desc argsort_desc_perm false demo_batch (demo_sample 5));
    [reflexivity | repeat constructor].
Defined.

Lemma collate_zero_beyond_length_witness :
  exists out ids,
    __call__ 0 argsort_desc false demo_batch = Ok (out, ids)
    /\ (forall i row n c,
          text_padded out !! i = Some row -> text_lengths out !! i = Some (Some n) ->
          n <= length row /\ (n <= c < length row -> row !! c = Some 0%Z))
    /\ (forall i row n c,
          tone_padded out !! i = Some row -> tone_lengths out !! i = Some (Some n) ->
          n <= length row /\ (n <= c < length row -> row !! c = Some 0%Z))
    /\ (forall i row n c,
          f0_padded out !! i = Some row -> f0_lengths out !! i = Some (Some n) ->
          n <= length row /\ (n <= c < length row -> row !! c = Some 0))
    /\ (forall i plane n r c,
          spec_padded out !! i = Some plane -> spec_lengths out !! i = Some (Some n) ->
          r ∈ rows plane ->
          n <= size1 plane /\ (n <= c < size1 plane -> r !! c = Some 0))
    /\ (forall i plane n r c,
          wav_padded out !! i = Some plane -> wav_lengths out !! i = Some (Some n) ->
          r ∈ rows plane ->
          n <= size1 plane /\ (n <= c < size1 plane -> r !! c = Some 0)).
Proof.
  apply (collate_zero_beyond_length 0 argsort_desc argsort_desc_perm false demo_batch
           (demo_sample 5));
    [reflexivity | repeat constructor].
Defined.

(** ** [_filter] *)

Section LoaderFacts.
Context {Str : Type} (str_len : Str -> nat) (getsize : Str -> result nat).
Variables (min_text_len max_text_len hop_length : nat).

Local Notation step := (filter_step str_len getsize min_text_len max_text_len hop_length).
Local Notation in_range := (text_in_range str_len min_text_len max_text_len).

Lemma filter_loop (entries : list (list Str)) (acc kept : list (list Str)) (accl lens : list Z) :
  foldM step entries (acc, accl) = Ok (kept, lens) ->
  Forall (fun entry => length entry = 3) entries
  /\ kept = acc ++ List.filter in_range entries
  /\ exists lens', lens = accl ++ lens'
                   /\ Forall2 (stored_length getsize hop_length)
                        (List.filter in_range entries) lens'
                   /\ (List.filter in_range entries <> [] -> hop_length <> 0).
Proof.
  revert acc accl. induction entries as [|entry entries IH]; intros acc accl H.
  - simpl in H. injection H as <- <-. split; [constructor|].
    split; [by rewrite app_nil_r|]. exists []. rewrite app_nil_r.
    split; [done|]. split; [constructor | done].
  - cbn [foldM] in H. inv_bind H. destruct a as [acc' accl'].
    destruct entry as [|audiopath [|text [|tone [|]]]]; try discriminate.
    cbn [filter_step fst snd] in Ha. cbn [List.filter].
    assert (in_range [audiopath; text; tone]
            = bool_decide (min_text_len <= str_len text)
              && bool_decide (str_len text <= max_text_len)) as -> by reflexivity.
    destruct (bool_decide (min_text_len <= str_len text)
              && bool_decide (str_len text <= max_text_len)).
    + inv_bind Ha. inv_bind Ha. injection Ha as <- <-.
      unfold py_floordiv in Ha1. destruct (decide (2 * hop_length = 0)); [discriminate|].
      injection Ha1 as <-.
      destruct (IH _ _ H) as (Hall & -> & lens' & -> & Hlens & _).
      split; [by constructor|]. split; [by rewrite <- app_assoc|].
      exists (Z.of_nat (a / (2 * hop_length)) :: lens').
      split; [by rewrite <- app_assoc|]. split; [| lia].
      constructor; [| done]. by exists audiopath, a.
    + injection Ha as <- <-. destruct (IH _ _ H) as (Hall & -> & lens' & -> & Hlens & Hhop).
      split; [by constructor|]. split; [done|]. exists lens'. auto.
Qed.

(** X18.  What [_filter] leaves the dataset with.  Whenever it returns,
    every entry had exactly three fields; the new entry list is the old one
    restricted to the entries with [min_text_len <= len(text) <= max_text_len],
    in the same order; the lengths list has one entry per kept sample, at the
    same position, equal to [getsize(audiopath) // (2 * hop_length)]; and
    [hop_length] was not zero if anything was kept. *)
Theorem filter_aligned (entries kept : list (list Str)) (lens : list Z) :
  _filter str_len getsize min_text_len max_text_len hop_length entries = Ok (kept, lens) ->
  Forall (fun entry => length entry = 3) entries
  /\ kept = List.filter in_range entries
  /\ length lens = length kept
  /\ Forall2 (stored_length getsize hop_length) kept lens
  /\ (kept <> [] -> hop_length <> 0).
Proof.
  unfold _filter. intros H.
  apply filter_loop in H as (Hall & -> & lens' & -> & Hlens & Hhop).
  cbn [app]. split; [done|]. split; [done|].
  split; [symmetry; by eapply Forall2_length|]. by split.
Qed.
End LoaderFacts.

Lemma filter_aligned_witness :
  Forall (fun entry => length entry = 3) [[[1; 2]; [5]; [6]]; [[3]; []; [7]]; [[4]; [8; 9]; []]]
  /\ [[[1; 2]; [5]; [6]]; [[4]; [8; 9]; []]]
     = List.filter (text_in_range (@length nat) 1 5000)
         [[[1; 2]; [5]; [6]]; [[3]; []; [7]]; [[4]; [8; 9]; []]]
  /\ length [4; 2]%Z = length [[[1; 2]; [5]; [6]]; [[4]; [8; 9]; []]]
  /\ Forall2 (stored_length (fun p => Ok (1024 * length p)) 256)
       [[[1; 2]; [5]; [6]]; [[4]; [8; 9]; []]] [4; 2]%Z
  /\ ([[[1; 2]; [5]; [6]]; [[4]; [8; 9]; []]] <> [] -> 256 <> 0).
Proof.
  apply (filter_aligned (@length nat) (fun p => Ok (1024 * length p)) 1 5000 256
           [[[1; 2]; [5]; [6]]; [[3]; []; [7]]; [[4]; [8; 9]; []]]
           [[[1; 2]; [5]; [6]]; [[4]; [8; 9]; []]] [4; 2]%Z).
  vm_compute. reflexivity.
Defined.
